(** * Height-field generation pipeline of [generation.py]

    A shallow embedding of [GenerationStrategy] and its two subclasses
    ([RandomStrategy], [LinearFaultStrategy]) together with the properties
    stated about them.

    Modelling conventions.
    - A numpy [float64] cell is an exact rational ([Q]).  Every quantity the
      pipeline compares is a rank divided by the cell count, a small integer
      or a configured threshold; ordering, equality, and integer rounding of
      those are what the properties below are about.  NaN and infinities do
      not occur on this path and are not represented.  Python's [==] on
      floats is [Qeq_bool].
    - A two-dimensional array is a list of rows ([list (list Q)]), indexed
      [hm[i][j]] with [i] in [range(width)] and [j] in [range(height)].
    - The [config] dictionary (a parsed JSON object) is a [gmap string value].
    - Exceptions are values of [exn], carried by the [result] monad.
    - The process-wide numpy generator is an explicit [rng] threaded through
      the calls that draw from it.

    The rectangle strategy of [visualization.py], which turns the generated
    field into drawing calls, follows the generation pipeline. *)

From Stdlib Require Import QArith Qround Qabs Lqa.
From stdpp Require Import base list gmap strings sorting.

(** ** Exceptions and the error monad *)

Inductive exn : Type :=
| ConfigException (msg : string)   (* [raise Exception(msg)] in the source *)
| KeyError (key : string)          (* dictionary subscript on a missing key *)
| NameError (name : string)        (* unbound global name *)
| TypeError.                       (* a config value of the wrong shape *)

Inductive result (A : Type) : Type :=
| Ok (a : A)
| Raise (e : exn).
Arguments Ok {A} a.
Arguments Raise {A} e.

#[global] Instance result_ret : MRet result := λ A a, Ok a.
#[global] Instance result_bind : MBind result := λ A B f m,
  match m with
  | Ok a => f a
  | Raise e => Raise e
  end.

(** ** Numbers *)

#[global] Instance Q_inhabited : Inhabited Q := populate 0%Q.

(** Python's [x < y] on two floats. *)
Definition Qlt_bool (x y : Q) : bool :=
  (Qnum x * QDen y <? Qnum y * QDen x)%Z.

Definition of_nat (n : nat) : Q := inject_Z (Z.of_nat n).

(** [round(x)]: to the nearest integer.  The two interpreters differ on
    exact halves only: Python 3 (and numpy's [__round__]) rounds a half to
    the even neighbour, Python 2 rounds it away from zero. *)
Inductive rounding : Type := HalfEven | HalfAway.

Definition round_half_even (q : Q) : Z :=
  let f := Qfloor q in
  let r := (q - inject_Z f)%Q in
  if Qlt_bool r (1 # 2) then f
  else if Qlt_bool (1 # 2) r then (f + 1)%Z
  else if Z.even f then f else (f + 1)%Z.

Definition round_half_away (q : Q) : Z :=
  if Qle_bool 0 q then Qfloor (q + (1 # 2))
  else Qceiling (q - (1 # 2)).

Definition round (m : rounding) (q : Q) : Z :=
  match m with
  | HalfEven => round_half_even q
  | HalfAway => round_half_away q
  end.

(** ** The configuration dictionary *)

Inductive value : Type :=
| VNone                    (* JSON [null] *)
| VInt (n : Z)
| VNums (l : list Q).      (* a JSON array of numbers *)

(** ** Height maps *)

(** The array behind [self.heightmap]. *)
Abbreviation HeightField := (list (list Q)).

(** [np.zeros([w, h])] *)
Definition zeros (w h : nat) : HeightField := replicate w (replicate h 0%Q).

(** [hm[i][j]] *)
Definition cell (hm : HeightField) (i j : nat) : Q := (hm !!! i) !!! j.

(** [hm[i][j] = x] *)
Definition set_cell (hm : HeightField) (i j : nat) (x : Q) : HeightField :=
  alter (λ row, <[j := x]> row) i hm.

(** The array has shape [(w, h)]. *)
Definition rect (w h : nat) (hm : HeightField) : Prop :=
  length hm = w ∧ Forall (λ row, length row = h) hm.

(** [hm.shape] *)
Definition shape (hm : HeightField) : nat * nat := (length hm, length (hm !!! 0)).

(** [np.ndindex(w, h)]: every index pair, the last index running fastest. *)
Definition ndindex (w h : nat) : list (nat * nat) :=
  i ← seq 0 w; pair i <$> seq 0 h.

(** [np.ndenumerate(hm)]: every [((i, j), hm[i][j])] in [ndindex] order. *)
Definition ndenumerate (hm : HeightField) : list ((nat * nat) * Q) :=
  (λ p, (p, cell hm p.1 p.2)) <$> ndindex (shape hm).1 (shape hm).2.

(** [for i in range(w): for j in range(h): body]. *)
Definition for_cells {S : Type} (w h : nat) (body : nat → nat → S → S) (s : S) : S :=
  foldl (λ s i, foldl (λ s j, body i j s) s (seq 0 h)) s (seq 0 w).

(** ** Normalizer: [__calc_percentiles] *)

(** [sorted(l, key = lambda x: x[1])]: a stable sort on the value.  An entry
    is placed before the first already-sorted entry that is not smaller, so
    entries of equal value keep their order. *)
Fixpoint insert_by_value (e : (nat * nat) * Q) (l : list ((nat * nat) * Q)) :=
  match l with
  | [] => [e]
  | e' :: l' =>
      if Qle_bool (snd e) (snd e') then e :: e' :: l'
      else e' :: insert_by_value e l'
  end.

Fixpoint sorted (l : list ((nat * nat) * Q)) : list ((nat * nat) * Q) :=
  match l with
  | [] => []
  | e :: l' => insert_by_value e (sorted l')
  end.

(** [(k+1.0)/len(arr_as_srtd_lst)] *)
Definition candidate (n k : nat) : Q := ((of_nat k + 1) / of_nat n)%Q.

(** One iteration's [curr_percentile].  [last] holds
    [(last_value, last_percentile)]: both are [None] before the first entry
    and both are assigned at the end of every iteration. *)
Definition next_percentile (n k : nat) (last : option (Q * Q)) (v : Q) : Q :=
  match last with
  | Some (last_value, last_percentile) =>
      if Qeq_bool v last_value then last_percentile else candidate n k
  | None => candidate n k
  end.

(** The loop over [enumerate(arr_as_srtd_lst)]; [k] is the enumeration index
    and [n] is [len(arr_as_srtd_lst)]. *)
Fixpoint percentile_loop (n k : nat) (last : option (Q * Q))
    (es : list ((nat * nat) * Q)) (hm : HeightField) : HeightField :=
  match es with
  | [] => hm
  | ((i, j), v) :: es' =>
      let curr_percentile := next_percentile n k last v in
      percentile_loop n (S k) (Some (v, curr_percentile)) es'
        (set_cell hm i j curr_percentile)
  end.

Definition calc_percentiles (hm : HeightField) : HeightField :=
  let arr_as_srtd_lst := sorted (ndenumerate hm) in
  percentile_loop (length arr_as_srtd_lst) 0 None arr_as_srtd_lst hm.

(** ** Max-normalisation: [__normalize] (kept in the class, not called by [generate]) *)

(** [np.max(hm)]: the largest entry of the flattened array.  On an array
    without elements numpy raises [ValueError]; that outcome is [None]. *)
Definition np_max (hm : HeightField) : option Q :=
  match mjoin hm with
  | [] => None
  | x :: xs => Some (foldl (λ a b, if Qlt_bool a b then b else a) x xs)
  end.

(** [np.ones(shape)] *)
Definition ones (shape : nat * nat) : HeightField :=
  replicate shape.1 (replicate shape.2 1%Q).

(** [mx] is bound once, before the loop; the loop reads each cell from the
    array it is overwriting, right before it overwrites it. *)
Definition normalize (hm : HeightField) : option HeightField :=
  mx ← np_max hm;
  if Qeq_bool mx 0 then Some (ones (shape hm))
  else Some (foldl (λ acc '((i, j), _), set_cell acc i j (cell acc i j / mx)%Q)
                   hm (ndenumerate hm)).

(** ** Grouper: [__calc_groups] *)

(** The inner [for k, t in enumerate(thresholds)] with its [break]:
    [Some k] when the loop leaves through the [break] ([groupFound] is
    [True]), [None] when it runs to the end. *)
Fixpoint find_group (k : nat) (thresholds : list Q) (x : Q) : option nat :=
  match thresholds with
  | [] => None
  | t :: ts => if Qlt_bool x t then Some k else find_group (S k) ts x
  end.

Definition group (thresholds : list Q) (x : Q) : nat :=
  match find_group 0 thresholds x with
  | Some k => k
  | None => length thresholds     (* assign to last group *)
  end.

(** The cells are visited in [ndenumerate] order and each is overwritten
    with its group right after it is read. *)
Definition group_cells (thresholds : list Q) (hm : HeightField) : HeightField :=
  foldl (λ acc '((i, j), _), set_cell acc i j (of_nat (group thresholds (cell acc i j))))
        hm (ndenumerate hm).

Definition calc_groups (config : gmap string value) (hm : HeightField) : result HeightField :=
  match config !! "thresholds" with
  | None => Raise (KeyError "thresholds")
  | Some VNone => Raise (ConfigException "The config parameter 'thresholds' must be set.")
  | Some (VNums thresholds) => Ok (group_cells thresholds hm)
  | Some (VInt _) =>
      (* an integer is not iterable; the error surfaces at the first cell *)
      match ndenumerate hm with
      | [] => Ok hm
      | _ :: _ => Raise TypeError
      end
  end.

(** ** ErosionFilter: [__get_neighbors] and [__smooth] *)

Definition in_shape (w h : Z) (e : (Z * Z) * Z) : bool :=
  let '((a, b), _) := e in
  (0 <=? a)%Z && (a <? w)%Z && (0 <=? b)%Z && (b <? h)%Z.

Definition get_neighbors (pt : Z * Z) (shape : Z * Z) : list ((Z * Z) * Z) :=
  let '(x, y) := pt in
  let '(w, h) := shape in
  let neighbors :=
    [ ((x-1, y), 1); ((x-1, y-1), 1); ((x-1, y+1), 1);
      ((x, y), 2);   ((x, y-1), 1);   ((x, y+1), 1);
      ((x+1, y), 1); ((x+1, y-1), 1); ((x+1, y+1), 1) ]%Z in
  List.filter (in_shape w h) neighbors.

(** [sum(l)] on floats and on integers: left to right from [0]. *)
Definition Qsum (l : list Q) : Q := foldl Qplus 0%Q l.
Definition Zsum (l : list Z) : Z := foldl Z.add 0%Z l.

(** The body of the two inner loops: reads [heightmap], writes [hm_copy]. *)
Definition smooth_cell (m : rounding) (w h : nat) (heightmap : HeightField)
    (i j : nat) (hm_copy : HeightField) : HeightField :=
  let neighbors := get_neighbors (Z.of_nat i, Z.of_nat j) (Z.of_nat w, Z.of_nat h) in
  let vals := map (λ '((k, l), wt), (cell heightmap (Z.to_nat k) (Z.to_nat l) * inject_Z wt)%Q)
                  neighbors in
  let sum_weights := Zsum (map snd neighbors) in
  set_cell hm_copy i j (inject_Z (round m (Qsum vals / inject_Z sum_weights))).

(** One pass of the [for m in range(...)] loop: [hm_copy] starts as
    [np.copy(self.heightmap)], a fresh array with the same contents, and
    becomes [self.heightmap] when the pass ends. *)
Definition smooth_round (m : rounding) (w h : nat) (heightmap : HeightField) : HeightField :=
  let hm_copy := heightmap in
  for_cells w h (smooth_cell m w h heightmap) hm_copy.

Definition smooth (m : rounding) (w h : nat) (config : gmap string value)
    (hm : HeightField) : result HeightField :=
  match config !! "erosion" with
  | None => Ok hm
  | Some (VInt n) => Ok (Nat.iter (Z.to_nat n) (smooth_round m w h) hm)
  | Some _ => Raise TypeError
  end.

(** ** The random generator *)

(** The generator is the sequence of results its next calls will return:
    [floats] for [np.random.random()] and [np.random.rand], each in [[0,1)],
    and [ints] for [np.random.randint]. *)
Record rng : Type := Rng { floats : nat → Q; ints : nat → nat }.

Definition random (g : rng) : Q * rng :=
  (floats g 0, Rng (λ n, floats g (S n)) (ints g)).

Definition randint (lo hi : nat) (g : rng) : nat * rng :=
  (lo + ints g 0 mod (hi - lo), Rng (floats g) (λ n, ints g (S n))).

Fixpoint rand_row (h : nat) (g : rng) : list Q * rng :=
  match h with
  | 0 => ([], g)
  | S h' =>
      let '(x, g) := random g in
      let '(row, g) := rand_row h' g in
      (x :: row, g)
  end.

(** [np.random.rand(w, h)] *)
Fixpoint rand (w h : nat) (g : rng) : HeightField * rng :=
  match w with
  | 0 => ([], g)
  | S w' =>
      let '(row, g) := rand_row h g in
      let '(rows, g) := rand w' h g in
      (row :: rows, g)
  end.

(** ** The strategies *)

Inductive strategy_class : Type :=
| GenerationStrategy
| RandomStrategy
| LinearFaultStrategy.

Record strategy : Type := Strategy {
  class : strategy_class;
  width : nat;
  height : nat;
  config : gmap string value
}.

(** Names bound to numbers, by namespace.  At module level [generation.py]
    binds [np], [o] and the three classes, and no number.  The class body of
    [LinearFaultStrategy] binds [__MODIFIER], which Python stores under the
    mangled name [_LinearFaultStrategy__MODIFIER]. *)
Definition module_globals : gmap string Q := ∅.

Definition class_namespace : gmap string Q :=
  {[ "_LinearFaultStrategy__MODIFIER" := (1 # 100000000)%Q ]}.

(** A bare name in a method body that is not a local of the method is looked
    up among the module's globals (and then the builtins, which hold no
    number either); the namespace of the enclosing class is not searched. *)
Definition load_global (name : string) : result Q :=
  match module_globals !! name with
  | Some v => Ok v
  | None => Raise (NameError name)
  end.

(** [__random_straight].  The bare name [__MODIFIER] in its body is compiled,
    like every private name inside a class definition, to
    [_LinearFaultStrategy__MODIFIER]. *)
Definition random_straight (self : strategy) (g : rng) : result ((Q * Q) * rng) :=
  let '(r, g) := random g in let x1 := (r * of_nat (width self))%Q in
  let '(r, g) := random g in let y1 := (r * of_nat (height self))%Q in
  let '(r, g) := random g in let x2 := (r * of_nat (width self))%Q in
  let '(r, g) := random g in let y2 := (r * of_nat (height self))%Q in
  x1 ← (if Qeq_bool x1 x2 then
          modifier ← load_global "_LinearFaultStrategy__MODIFIER";
          if Qlt_bool (of_nat (width self)) (x1 + modifier) then
            modifier ← load_global "_LinearFaultStrategy__MODIFIER";
            Ok (x1 - modifier)%Q
          else
            modifier ← load_global "_LinearFaultStrategy__MODIFIER";
            Ok (x1 + modifier)%Q
        else Ok x1);
  let a := ((y1 - y2) / (x1 - x2))%Q in
  let b := (y1 - a * x1)%Q in
  Ok ((a, b), g).

(** [__get_y] *)
Definition get_y (s : Q * Q) (x : Q) : Q := (fst s * x + snd s)%Q.

(** [[o.lt, o.le, o.gt, o.ge]] *)
Definition comparators : list (Q → Q → bool) :=
  [ Qlt_bool; Qle_bool; (λ a b, Qlt_bool b a); (λ a b, Qle_bool b a) ].

(** The body of the [for i ... for j ...] loops of the fault algorithm. *)
Definition fault_cell (s : Q * Q) (comp : Q → Q → bool) (i j : nat) (hm : HeightField) : HeightField :=
  let y := get_y s (of_nat i) in
  let curr := cell hm i j in
  if comp y (of_nat j) then set_cell hm i j (curr + 1)%Q else hm.

(** [for k in range(n)] of [LinearFaultStrategy._generate_raw]. *)
Fixpoint fault_loop (self : strategy) (n : nat) (g : rng) (hm : HeightField)
    : result (HeightField * rng) :=
  match n with
  | 0 => Ok (hm, g)
  | S n' =>
      '(s, g) ← random_straight self g;
      let '(c, g) := randint 0 4 g in
      let comp := comparators !!! c in
      fault_loop self n' g (for_cells (width self) (height self) (fault_cell s comp) hm)
  end.

(** [_generate_raw], by class. *)
Definition generate_raw (self : strategy) (g : rng) : result (HeightField * rng) :=
  match class self with
  | GenerationStrategy => Ok (zeros (width self) (height self), g)
  | RandomStrategy => Ok (rand (width self) (height self) g)
  | LinearFaultStrategy =>
      match config self !! "iterations" with
      | None => Raise (ConfigException "Config parameter 'iterations' missing for linear fault generator")
      | Some (VInt n) => fault_loop self (Z.to_nat n) g (zeros (width self) (height self))
      | Some _ => Raise TypeError
      end
  end.

(** [generate]: [self._generate_raw().__calc_percentiles().__calc_groups().__smooth()] *)
Definition generate (m : rounding) (self : strategy) (g : rng) : result HeightField :=
  '(raw, _) ← generate_raw self g;
  grouped ← calc_groups (config self) (calc_percentiles raw);
  smooth m (width self) (height self) (config self) grouped.

(** * Visualisation: [visualization.py], the rectangle strategy

    The calls into PIL ([Image.new], [ImageDraw.Draw.rectangle],
    [Image.save]) are recorded with their arguments and not interpreted: a
    run is described by what it asks PIL to do. *)

(** The values of the [visualization] object of the scenario file:
    integers, strings and arrays.  A colour is an array (after [terrain.py],
    a tuple) of three integers. *)
#[warnings="-register-all"]
Inductive vis_value : Type :=
| Num (n : Z)
| Str (s : string)
| Arr (l : list vis_value).

#[global] Instance vis_value_inhabited : Inhabited vis_value := populate (Num 0).

Inductive vis_exn : Type :=
| VisException (msg : string)   (* [raise Exception(msg)] in the source *)
| VisKeyError (key : string)    (* dictionary subscript on a missing key *)
| IndexError                    (* sequence index out of range *)
| VisTypeError.                 (* subscript of a number *)

Inductive outcome (A : Type) : Type :=
| Done (a : A)
| Fails (e : vis_exn).
Arguments Done {A} a.
Arguments Fails {A} e.

#[global] Instance outcome_ret : MRet outcome := λ A a, Done a.
#[global] Instance outcome_bind : MBind outcome := λ A B f m,
  match m with
  | Done a => f a
  | Fails e => Fails e
  end.

(** [config[key]] *)
Definition dict_item (config : gmap string vis_value) (key : string) : outcome vis_value :=
  match config !! key with
  | Some v => Done v
  | None => Fails (VisKeyError key)
  end.

(** [int(idx)] on a float: truncation towards zero. *)
Definition py_int (idx : Q) : Z :=
  if Qlt_bool idx 0 then Qceiling idx else Qfloor idx.

(** [l[k]] on a sequence: a negative [k] counts from the end. *)
Definition list_item {A} (l : list A) (k : Z) : outcome A :=
  let n := Z.of_nat (length l) in
  let k := if (k <? 0)%Z then (k + n)%Z else k in
  if (k <? 0)%Z then Fails IndexError
  else match l !! Z.to_nat k with
       | Some a => Done a
       | None => Fails IndexError
       end.

(** [v[k]] *)
Definition subscript (v : vis_value) (k : Z) : outcome vis_value :=
  match v with
  | Arr l => list_item l k
  | Str s => c ← list_item (String.list_ascii_of_string s) k; Done (Str (String c EmptyString))
  | Num _ => Fails VisTypeError
  end.

(** [v * k] with an integer [k]: the product of two integers, or a sequence
    repeated [k] times (no times when [k] is negative). *)
Definition py_mul (v : vis_value) (k : Z) : vis_value :=
  match v with
  | Num n => Num (n * k)
  | Str s => Str (foldr String.append EmptyString (replicate (Z.to_nat k) s))
  | Arr l => Arr (mjoin (replicate (Z.to_nat k) l))
  end.

(** The attributes of a [RectangleStrategy] object.  [img_width] and
    [img_height] are [self.width] and [self.height], the size given to
    [Image.new]. *)
Record rectangle_strategy : Type := RectangleStrategy {
  sidelen_x : vis_value;
  sidelen_y : vis_value;
  img_width : vis_value;
  img_height : vis_value;
  vis_config : gmap string vis_value;
  color_map : vis_value;
  heightmap : HeightField
}.

(** [RectangleStrategy.__init__], with the base class's [__init__] it ends
    in. *)
Definition RectangleStrategy_init (heightmap : HeightField)
    (config : gmap string vis_value) : outcome rectangle_strategy :=
  sidelen_x ← dict_item config "sidelen_x";
  sidelen_y ← dict_item config "sidelen_y";
  let width := py_mul sidelen_x (Z.of_nat (shape heightmap).1) in
  let height := py_mul sidelen_y (Z.of_nat (shape heightmap).2) in
  color_map ← dict_item config "colors";
  Done (RectangleStrategy sidelen_x sidelen_y width height config color_map heightmap).

(** [get_color] *)
Definition get_color (self : rectangle_strategy) (idx : Q) : outcome vis_value :=
  subscript (color_map self) (py_int idx).

(** One call of [self.draw.rectangle(box, fill=...)]. *)
Record rectangle_call : Type := Rectangle {
  box : list vis_value;
  fill : vis_value
}.

(** The box of the tile of cell [(i, j)]. *)
Definition tile (self : rectangle_strategy) (i j : nat) : list vis_value :=
  [ py_mul (sidelen_x self) (Z.of_nat i);
    py_mul (sidelen_y self) (Z.of_nat j);
    py_mul (sidelen_x self) (Z.of_nat i + 1);
    py_mul (sidelen_y self) (Z.of_nat j + 1) ].

(** The loop of [_visualize] over the cells still to draw: the rectangles
    it draws, or the exception of the first cell without a colour. *)
Fixpoint draw_tiles (self : rectangle_strategy) (cells : list ((nat * nat) * Q))
    : outcome (list rectangle_call) :=
  match cells with
  | [] => Done []
  | ((i, j), g) :: cells' =>
      c ← get_color self g;
      calls ← draw_tiles self cells';
      Done (Rectangle (tile self i j) c :: calls)
  end.

Definition _visualize (self : rectangle_strategy) : outcome (list rectangle_call) :=
  draw_tiles self (ndenumerate (heightmap self)).

(** [visualize]: the file name given to [self.img.save] and the rectangles
    drawn before it.  [_pre_save_filter] is the base class's [pass]. *)
Definition visualize (self : rectangle_strategy)
    : outcome (vis_value * list rectangle_call) :=
  match vis_config self !! "filename" with
  | None => Fails (VisException "No image filename given.")
  | Some filename =>
      match vis_config self !! "colors" with
      | None => Fails (VisException "No colormap given for rectangle visualization.")
      | Some _ =>
          calls ← _visualize self;
          Done (filename, calls)
      end
  end.

(** The last two statements of [terrain.py] for the strategy ['rect']:
    construct the object, then call [visualize]. *)
Definition main_visualize (heightmap : HeightField) (config : gmap string vis_value)
    : outcome (vis_value * list rectangle_call) :=
  strategy ← RectangleStrategy_init heightmap config;
  visualize strategy.

(** * Notions used to state the properties *)

(** ** Percentiles *)

(** The order [sorted] establishes: by value, ascending. *)
Definition value_le (a b : (nat * nat) * Q) : Prop := (a.2 <= b.2)%Q.

(** How many entries carry a value strictly below [v]. *)
Fixpoint count_lt (v : Q) (l : list ((nat * nat) * Q)) : nat :=
  match l with
  | [] => 0
  | e :: l' => (if Qlt_bool e.2 v then 1 else 0) + count_lt v l'
  end.

(** The assignments the percentile loop performs, in order. *)
Fixpoint percentile_writes (n k : nat) (last : option (Q * Q))
    (es : list ((nat * nat) * Q)) : list ((nat * nat) * Q) :=
  match es with
  | [] => []
  | (p, v) :: es' =>
      let c := next_percentile n k last v in
      (p, c) :: percentile_writes n (S k) (Some (v, c)) es'
  end.

(** What the loop remembers after the entries [pre] of the sorted list
    [whole]: the value of the last entry of [pre] and its percentile. *)
Definition last_inv (n : nat) (whole pre : list ((nat * nat) * Q))
    (last : option (Q * Q)) : Prop :=
  match last with
  | None => pre = []
  | Some (lv, lp) =>
      (∃ pre' p, pre = pre' ++ [(p, lv)]) ∧ lp = candidate n (count_lt lv whole)
  end.

(** Two fields hold the same numbers, cell by cell. *)
Definition field_eq (a b : HeightField) : Prop := Forall2 (Forall2 Qeq) a b.

(** Two fields of shape [(w, h)] order their cells the same way. *)
Definition same_order (w h : nat) (hm1 hm2 : HeightField) : Prop :=
  ∀ i j i' j', i < w → j < h → i' < w → j' < h →
    (cell hm1 i j < cell hm1 i' j')%Q ↔ (cell hm2 i j < cell hm2 i' j')%Q.

(** ** Groups *)

(** The classification as the design states it: [k] is the index of the
    first threshold that strictly exceeds [x], or the number of thresholds
    when none does. *)
Definition is_group (thresholds : list Q) (x : Q) (k : nat) : Prop :=
  (∀ k' t, k' < k → thresholds !! k' = Some t → ¬ (x < t)%Q) ∧
  match thresholds !! k with
  | Some t => (x < t)%Q
  | None => k = length thresholds
  end.

(** How many thresholds do not exceed [x]. *)
Fixpoint count_le (x : Q) (thresholds : list Q) : nat :=
  match thresholds with
  | [] => 0
  | t :: ts => (if Qle_bool t x then 1 else 0) + count_le x ts
  end.

(** The field has shape [(w, h)] and every cell holds an integer in
    [[0, L]]. *)
Definition int_field (w h : nat) (L : Z) (hm : HeightField) : Prop :=
  rect w h hm ∧
  ∀ i j, i < w → j < h → ∃ z : Z, cell hm i j = inject_Z z ∧ (0 ≤ z ≤ L)%Z.

(** ** Erosion *)

(** The filter as the design states it.  The 3×3 neighbourhood of [(i, j)]
    is the set of offsets [(di, dj)] with [di], [dj] in [-1, 0, 1]; the
    center has weight 2 and the eight surrounding cells weight 1; a
    neighbour outside the field contributes neither a value nor a weight. *)
Definition offsets : list Z := [-1; 0; 1]%Z.

(** The weight of the neighbour at offset [(di, dj)]. *)
Definition nb_weight (di dj : Z) : Z :=
  if (di =? 0)%Z && (dj =? 0)%Z then 2%Z else 1%Z.

(** The neighbour of [(i, j)] at offset [(di, dj)] lies in the field. *)
Definition nb_inside (w h i j : nat) (di dj : Z) : bool :=
  (0 <=? Z.of_nat i + di)%Z && (Z.of_nat i + di <? Z.of_nat w)%Z &&
  (0 <=? Z.of_nat j + dj)%Z && (Z.of_nat j + dj <? Z.of_nat h)%Z.

(** Its weighted value, zero when it is outside. *)
Definition nb_value (w h : nat) (hm : HeightField) (i j : nat) (di dj : Z) : Q :=
  if nb_inside w h i j di dj
  then (cell hm (Z.to_nat (Z.of_nat i + di)) (Z.to_nat (Z.of_nat j + dj))
        * inject_Z (nb_weight di dj))%Q
  else 0%Q.

(** Its weight, zero when it is outside. *)
Definition nb_present (w h i j : nat) (di dj : Z) : Z :=
  if nb_inside w h i j di dj then nb_weight di dj else 0%Z.

(** The sum of the weighted neighbour values of [(i, j)]. *)
Definition weighted_sum (w h : nat) (hm : HeightField) (i j : nat) : Q :=
  Qsum (map (λ di, Qsum (map (nb_value w h hm i j di) offsets)) offsets).

(** The sum of the weights actually present around [(i, j)]. *)
Definition weights_present (w h i j : nat) : Z :=
  Zsum (map (λ di, Zsum (map (nb_present w h i j di) offsets)) offsets).

(** The offsets in the order in which [__get_neighbors] lists them. *)
Definition listed_offsets : list (Z * Z) :=
  [ (-1, 0); (-1, -1); (-1, 1); (0, 0); (0, -1); (0, 1); (1, 0); (1, -1); (1, 1) ]%Z.

(** The erosion count, when configured, is an integer. *)
Definition erosion_well_formed (config : gmap string value) : Prop :=
  config !! "erosion" = None ∨ ∃ r, config !! "erosion" = Some (VInt r).

(** ** The fault algorithm *)

(** What one visit of the fault loops leaves in a cell that held [c]. *)
Definition fault_value (s : Q * Q) (comp : Q → Q → bool) (i j : nat) (c : Q) : Q :=
  if comp (get_y s (of_nat i)) (of_nat j) then (c + 1)%Q else c.

(** The generator after [__random_straight] and the [randint] that follows
    it: four floats and one integer have been consumed. *)
Definition after_line (g : rng) : rng :=
  Rng (λ k, floats g (4 + k)) (λ k, ints g (S k)).

(** In each of the next [n] iterations the two points drawn for the line
    have different x-coordinates. *)
Fixpoint distinct_x (self : strategy) (n : nat) (g : rng) : Prop :=
  match n with
  | 0 => True
  | S n' =>
      ¬ (floats g 0 * of_nat (width self) == floats g 2 * of_nat (width self))%Q ∧
      distinct_x self n' (after_line g)
  end.

(** The lines [__random_straight] returns in the next [n] iterations, each
    with the comparison drawn for it; the list ends where the method
    raises. *)
Fixpoint drawn_lines (self : strategy) (n : nat) (g : rng)
    : list ((Q * Q) * (Q → Q → bool)) :=
  match n with
  | 0 => []
  | S n' =>
      match random_straight self g with
      | Ok (s, g) =>
          let '(c, g) := randint 0 4 g in
          (s, comparators !!! c) :: drawn_lines self n' g
      | Raise _ => []
      end
  end.

(** How many of the [lines] have their comparison hold at cell [(i, j)]:
    [comp(y, j)] with [y] the height of the line at [x = i]. *)
Fixpoint lines_raising (lines : list ((Q * Q) * (Q → Q → bool))) (i j : nat) : nat :=
  match lines with
  | [] => 0
  | (s, comp) :: ls =>
      (if comp (get_y s (of_nat i)) (of_nat j) then 1 else 0) + lines_raising ls i j
  end.

(** ** Sample inputs *)

(** The raw field and the thresholds of the 2×2 scenario.  The thresholds
    0.3 and 0.6 stand for the binary64 numbers nearest to them; every
    percentile of a four-cell field (0.25, 0.5, 0.75, 1.0) compares with
    those the same way as with 3/10 and 6/10. *)
Definition hm_2x2 : HeightField := [[1; 2]; [2; 3]]%Q.
Definition thresholds_3 : list Q := [3 # 10; 6 # 10; 1]%Q.

(** The 2×2 scenario with its largest value replaced by an outlier. *)
Definition hm_2x2_outlier : HeightField := [[1; 2]; [2; 1000]]%Q.

(** A 3×3 and a 5×5 field of group indices. *)
Definition hm_3x3 : HeightField := [[0; 0; 3]; [0; 3; 3]; [3; 3; 3]]%Q.

Definition hm_5x5 : HeightField :=
  [ [3; 0; 0; 0; 0]; [1; 2; 0; 0; 0]; [0; 0; 0; 0; 0];
    [0; 0; 0; 0; 0]; [0; 0; 0; 0; 4] ]%Q.

(** A fault strategy on a 3×4 field with five iterations, four thresholds
    and two erosion rounds. *)
Definition fault_config : gmap string value :=
  {[ "iterations" := VInt 5; "thresholds" := VNums [1 # 4; 1 # 2; 3 # 4; 1]%Q;
     "erosion" := VInt 2 ]}.

Definition fault_3x4 : strategy := Strategy LinearFaultStrategy 3 4 fault_config.

(** A generator whose floats run through the elevenths and whose integers
    count up. *)
Definition some_rng : rng :=
  Rng (λ n, (Z.of_nat (n * 7 mod 11) # 11)%Q) (λ n, n).

(** A generator whose first and third float are the same number, so the
    two points of the first line share their x-coordinate. *)
Definition equal_x_rng : rng := Rng (λ _, (1 # 2)%Q) (λ _, 0).

(** A random strategy on a 2×3 field with three thresholds and no erosion;
    with [some_rng] its raw field is [raw_2x3] and its map is [map_2x3]. *)
Definition random_2x3 : strategy :=
  Strategy RandomStrategy 2 3 {[ "thresholds" := VNums [1 # 4; 1 # 2; 3 # 4]%Q ]}.

Definition raw_2x3 : HeightField :=
  [[0 # 11; 7 # 11; 3 # 11]; [10 # 11; 6 # 11; 2 # 11]]%Q.

Definition map_2x3 : HeightField := [[0; 3; 2]; [3; 2; 1]]%Q.

(** A rectangle strategy over [map_2x3], 10×10 tiles, with the given
    colours. *)
Definition rect_config (colors : list vis_value) : gmap string vis_value :=
  {[ "sidelen_x" := Num 10; "sidelen_y" := Num 10;
     "colors" := Arr colors; "filename" := Str "map.png" ]}.

Definition rect_2x3 (colors : list vis_value) : rectangle_strategy :=
  RectangleStrategy (Num 10) (Num 10) (Num 20) (Num 30)
                    (rect_config colors) (Arr colors) map_2x3.

Definition blue : vis_value := Arr [Num 0; Num 0; Num 255].
Definition sand : vis_value := Arr [Num 237; Num 201; Num 175].
Definition green : vis_value := Arr [Num 0; Num 128; Num 0].
Definition white : vis_value := Arr [Num 255; Num 255; Num 255].

(** * Properties *)

(** ** Arrays *)

Lemma rect_zeros w h : rect w h (zeros w h).
Proof.
  split; [apply length_replicate|].
  apply Forall_forall. intros row Hrow.
  apply elem_of_replicate_inv in Hrow as ->. apply length_replicate.
Qed.

Lemma rect_row w h hm i : rect w h hm → i < w → length (hm !!! i) = h.
Proof.
  intros [Hw Hh] Hi.
  assert (hm !! i = Some (hm !!! i)) as Hrow
    by (apply list_lookup_lookup_total_lt; lia).
  by apply (Forall_lookup_1 _ _ _ _ Hh Hrow).
Qed.

Lemma rect_shape w h hm : rect w h hm → 0 < w → shape hm = (w, h).
Proof.
  intros Hr Hw. unfold shape. f_equal; [apply Hr|]. by apply (rect_row w).
Qed.

Lemma rect_set_cell w h hm i j x : rect w h hm → rect w h (set_cell hm i j x).
Proof.
  intros [Hw Hh]. unfold set_cell. split; [by rewrite length_alter|].
  apply Forall_lookup. intros k row Hk.
  rewrite list_lookup_alter in Hk.
  case_decide; [subst k|by apply (Forall_lookup_1 _ _ _ _ Hh Hk)].
  destruct (hm !! i) as [row'|] eqn:Hi; simplify_eq/=.
  rewrite length_insert. by apply (Forall_lookup_1 _ _ _ _ Hh Hi).
Qed.

Lemma cell_set_cell_eq w h hm i j x :
  rect w h hm → i < w → j < h → cell (set_cell hm i j x) i j = x.
Proof.
  intros Hr Hi Hj. unfold cell, set_cell.
  rewrite list_lookup_total_alter_eq by (destruct Hr; lia).
  apply list_lookup_total_insert_eq. rewrite (rect_row w h) by done. lia.
Qed.

Lemma cell_set_cell_ne hm i j x i' j' :
  (i', j') ≠ (i, j) → cell (set_cell hm i j x) i' j' = cell hm i' j'.
Proof.
  intros Hne. unfold cell, set_cell.
  rewrite list_lookup_total_alter. case_decide as Hi; [|done].
  destruct Hi as [-> _]. apply list_lookup_total_insert_ne. congruence.
Qed.

Lemma set_cell_id hm i j : set_cell hm i j (cell hm i j) = hm.
Proof.
  unfold set_cell, cell. apply list_eq. intros k.
  rewrite list_lookup_alter. case_decide; [subst k|done].
  destruct (hm !! i) as [row|] eqn:Hi; [|done]. simpl. f_equal.
  rewrite (list_lookup_total_correct _ _ _ Hi).
  destruct (row !! j) as [y|] eqn:Hj.
  - rewrite (list_lookup_total_correct _ _ _ Hj). by apply list_insert_id.
  - apply list_insert_ge. by apply lookup_ge_None.
Qed.

Lemma elem_of_ndindex w h i j : (i, j) ∈ ndindex w h ↔ i < w ∧ j < h.
Proof.
  unfold ndindex. rewrite list_elem_of_bind. split.
  - intros (i' & Hj & Hi). apply list_elem_of_fmap in Hj as (j' & ? & Hj).
    simplify_eq. apply elem_of_seq in Hi, Hj. lia.
  - intros [Hi Hj]. exists i. split.
    + apply list_elem_of_fmap. exists j. split; [done|]. apply elem_of_seq. lia.
    + apply elem_of_seq. lia.
Qed.

Lemma NoDup_ndindex w h : NoDup (ndindex w h).
Proof.
  unfold ndindex. apply NoDup_bind; [| |apply NoDup_seq].
  - intros i1 i2 [i j] _ _ H1 H2.
    apply list_elem_of_fmap in H1 as (? & ? & _).
    apply list_elem_of_fmap in H2 as (? & ? & _). congruence.
  - intros i _. apply NoDup_fmap_2; [|apply NoDup_seq]. by intros ?? [=].
Qed.

(** The nested loops visit the index pairs in [ndindex] order. *)
Lemma for_cells_ndindex {S} w h (body : nat → nat → S → S) s :
  for_cells w h body s = foldl (λ s p, body p.1 p.2 s) s (ndindex w h).
Proof.
  unfold for_cells, ndindex. generalize (seq 0 w). intros l. revert s.
  induction l as [|i l IH]; intros s; [done|].
  rewrite bind_cons, foldl_app, foldl_fmap. simpl. apply IH.
Qed.

(** A loop that overwrites each listed cell once, with a value computed from
    the cell itself and from data [a] that travels with the index. *)
Lemma foldl_update_cells {A} (f : A → nat → nat → Q → Q) w h
    (ws : list ((nat * nat) * A)) hm :
  NoDup (ws.*1) → rect w h hm →
  (∀ i j a, ((i, j), a) ∈ ws → i < w ∧ j < h) →
  let hm' := foldl (λ acc '((i, j), a), set_cell acc i j (f a i j (cell acc i j))) hm ws in
  rect w h hm' ∧
  (∀ i j a, ((i, j), a) ∈ ws → cell hm' i j = f a i j (cell hm i j)) ∧
  (∀ i j, (i, j) ∉ ws.*1 → cell hm' i j = cell hm i j).
Proof.
  revert hm. induction ws as [|[[i0 j0] a0] ws IH]; intros hm Hnd Hr Hin; simpl.
  - split_and!; [done| |done]. intros ??? H. by apply elem_of_nil in H.
  - apply NoDup_cons in Hnd as [Hnotin Hnd]. simpl in Hnotin.
    destruct (Hin i0 j0 a0) as [Hi0 Hj0]; [left|].
    specialize (IH (set_cell hm i0 j0 (f a0 i0 j0 (cell hm i0 j0))) Hnd).
    destruct IH as (IHr & IHin & IHout).
    { by apply rect_set_cell. }
    { intros i j a H. apply (Hin i j a). by right. }
    split_and!; [done| |].
    + intros i j a [H|H]%elem_of_cons.
      * simplify_eq. rewrite IHout by done. by apply (cell_set_cell_eq w h).
      * rewrite (IHin i j a H). rewrite cell_set_cell_ne; [done|].
        intros [= -> ->]. apply Hnotin.
        apply list_elem_of_fmap. by exists (i0, j0, a).
    + intros i j Hnot. apply not_elem_of_cons in Hnot as [Hne Hnot].
      rewrite IHout by done. by apply cell_set_cell_ne.
Qed.

(** ** Numbers *)

Lemma Qlt_bool_iff x y : Qlt_bool x y = true ↔ (x < y)%Q.
Proof. unfold Qlt_bool, Qlt. apply Z.ltb_lt. Qed.

Lemma Qlt_bool_false x y : Qlt_bool x y = false ↔ (y <= x)%Q.
Proof. unfold Qlt_bool, Qle. apply Z.ltb_ge. Qed.

Lemma Qle_bool_false x y : Qle_bool x y = false → (y < x)%Q.
Proof.
  intros H. apply Qnot_le_lt. intros Hle.
  apply Qle_bool_iff in Hle. congruence.
Qed.

#[global] Instance Qlt_bool_proper : Proper (Qeq ==> Qeq ==> eq) Qlt_bool.
Proof.
  intros x x' Hx y y' Hy.
  destruct (Qlt_bool x y) eqn:H1, (Qlt_bool x' y') eqn:H2; try done.
  - apply Qlt_bool_iff in H1. apply Qlt_bool_false in H2.
    rewrite Hx, Hy in H1. by apply Qlt_not_le in H1.
  - apply Qlt_bool_iff in H2. apply Qlt_bool_false in H1.
    rewrite Hx, Hy in H1. by apply Qlt_not_le in H2.
Qed.

Lemma of_nat_nonneg n : (0 <= of_nat n)%Q.
Proof. unfold of_nat. change 0%Q with (inject_Z 0). rewrite <- Zle_Qle. lia. Qed.

Lemma of_nat_le a b : a ≤ b → (of_nat a <= of_nat b)%Q.
Proof. intros. unfold of_nat. rewrite <- Zle_Qle. lia. Qed.

Lemma of_nat_pos n : 0 < n → (0 < of_nat n)%Q.
Proof. intros. unfold of_nat. change 0%Q with (inject_Z 0). rewrite <- Zlt_Qlt. lia. Qed.

(** ** Sorting *)

#[global] Instance value_le_trans : Transitive value_le.
Proof. intros a b c. unfold value_le. apply Qle_trans. Qed.

Lemma insert_by_value_Permutation e l : insert_by_value e l ≡ₚ e :: l.
Proof.
  induction l as [|e' l IH]; simpl; [done|].
  destruct (Qle_bool e.2 e'.2); [done|]. rewrite IH. apply perm_swap.
Qed.

Lemma sorted_Permutation l : sorted l ≡ₚ l.
Proof.
  induction l as [|e l IH]; simpl; [done|].
  by rewrite insert_by_value_Permutation, IH.
Qed.

Lemma insert_by_value_sorted e l :
  StronglySorted value_le l → StronglySorted value_le (insert_by_value e l).
Proof.
  induction 1 as [|e' l Hl IH Hall]; simpl.
  - repeat constructor.
  - destruct (Qle_bool e.2 e'.2) eqn:Hle.
    + apply Qle_bool_iff in Hle. constructor; [by constructor|].
      constructor; [done|].
      eapply Forall_impl; [exact Hall|]. intros x Hx. by transitivity e'.
    + apply Qle_bool_false in Hle. constructor; [done|].
      rewrite insert_by_value_Permutation. constructor; [|done].
      by apply Qlt_le_weak.
Qed.

Lemma sorted_sorted l : StronglySorted value_le (sorted l).
Proof.
  induction l; simpl; [constructor|by apply insert_by_value_sorted].
Qed.

Lemma count_lt_app v l1 l2 : count_lt v (l1 ++ l2) = count_lt v l1 + count_lt v l2.
Proof. induction l1; simpl; lia. Qed.

Lemma count_lt_Permutation v l1 l2 : l1 ≡ₚ l2 → count_lt v l1 = count_lt v l2.
Proof. induction 1; simpl; lia. Qed.

Lemma count_lt_all v l : Forall (λ e, (e.2 < v)%Q) l → count_lt v l = length l.
Proof.
  induction 1 as [|e l He _ IH]; simpl; [done|].
  apply Qlt_bool_iff in He. rewrite He. lia.
Qed.

Lemma count_lt_none v l : Forall (λ e, (v <= e.2)%Q) l → count_lt v l = 0.
Proof.
  induction 1 as [|e l He _ IH]; simpl; [done|].
  apply Qlt_bool_false in He. rewrite He. lia.
Qed.

Lemma count_lt_Qeq v v' l : (v == v')%Q → count_lt v l = count_lt v' l.
Proof. intros Hv. induction l as [|e l IH]; simpl; [done|]. by rewrite IH, Hv. Qed.

Lemma count_lt_mono v v' l : (v <= v')%Q → count_lt v l ≤ count_lt v' l.
Proof.
  intros Hv. induction l as [|e l IH]; simpl; [done|].
  destruct (Qlt_bool e.2 v) eqn:H1; [|lia].
  apply Qlt_bool_iff in H1.
  assert (Qlt_bool e.2 v' = true) as ->; [|lia].
  apply Qlt_bool_iff. by eapply Qlt_le_trans.
Qed.

Lemma count_lt_le_length v l : count_lt v l ≤ length l.
Proof. induction l as [|e l IH]; simpl; [done|]. destruct (Qlt_bool e.2 v); lia. Qed.

(** ** Normalizer *)

Lemma percentile_loop_writes n k last es hm :
  percentile_loop n k last es hm =
  foldl (λ acc '((i, j), c), set_cell acc i j c) hm (percentile_writes n k last es).
Proof.
  revert k last hm. induction es as [|[[i j] v] es IH]; intros k last hm; [done|].
  simpl. apply IH.
Qed.

(** On a sorted list every entry is assigned the candidate percentile of the
    first entry of its run of equal values, whose index is the number of
    entries with a strictly smaller value. *)
Lemma percentile_writes_spec n whole es : ∀ pre k last,
  whole = pre ++ es → StronglySorted value_le whole →
  k = length pre → last_inv n whole pre last →
  Forall2 (λ e c, c.1 = e.1 ∧ c.2 = candidate n (count_lt e.2 whole))
          es (percentile_writes n k last es).
Proof.
  induction es as [|[p v] es IH]; intros pre k last Hwhole Hsorted Hk Hlast;
    simpl; [constructor|].
  assert (Forall (λ e, (v <= e.2)%Q) ((p, v) :: es)) as Hge.
  { rewrite Hwhole in Hsorted. apply StronglySorted_app_1_r in Hsorted.
    apply StronglySorted_inv in Hsorted as [_ Hall].
    constructor; [apply Qle_refl|done]. }
  assert (next_percentile n k last v = candidate n (count_lt v whole)) as Hc.
  { destruct last as [[lv lp]|]; simpl in *.
    - destruct Hlast as [(pre' & p' & Hpre) Hlp].
      destruct (Qeq_bool v lv) eqn:Heq.
      + apply Qeq_bool_iff in Heq. by rewrite Hlp, (count_lt_Qeq v lv).
      + apply Qeq_bool_neq in Heq. f_equal.
        rewrite Hwhole, count_lt_app, (count_lt_none v (_ :: _)) by done.
        rewrite count_lt_all; [lia|].
        apply Forall_forall. intros e He.
        assert (value_le e (p', lv)) as He'.
        { subst pre. apply elem_of_app in He as [He|He].
          - rewrite Hwhole, <- !(assoc_L (++)) in Hsorted.
            eapply StronglySorted_app_1_elem_of; [exact Hsorted|done|].
            apply elem_of_app. left. by apply list_elem_of_singleton.
          - apply list_elem_of_singleton in He as ->. apply Qle_refl. }
        assert (value_le (p', lv) (p, v)) as Hlv.
        { rewrite Hwhole in Hsorted.
          eapply StronglySorted_app_1_elem_of; [exact Hsorted| |left].
          subst pre. apply elem_of_app. right. by apply list_elem_of_singleton. }
        unfold value_le in *. simpl in *.
        eapply Qle_lt_trans; [exact He'|].
        apply Qle_lteq in Hlv as [?|Hlv]; [done|]. by destruct Heq.
    - subst pre k whole. simpl app. by rewrite (count_lt_none v (_ :: _)). }
  constructor; [done|].
  apply (IH (pre ++ [(p, v)])).
  - by rewrite <- (assoc_L (++)).
  - done.
  - rewrite length_app. simpl. lia.
  - simpl. split; [by eexists _, _|done].
Qed.

Lemma length_ndindex w h : length (ndindex w h) = w * h.
Proof.
  unfold ndindex.
  assert (∀ l : list nat, length (l ≫= λ i, pair i <$> seq 0 h) = length l * h) as Hl.
  { induction l as [|i l IH]; [done|].
    rewrite bind_cons, length_app, length_fmap, length_seq, IH. simpl. lia. }
  by rewrite Hl, length_seq.
Qed.

Lemma ndenumerate_rect w h hm :
  rect w h hm → ndenumerate hm = (λ p, (p, cell hm p.1 p.2)) <$> ndindex w h.
Proof.
  intros Hr. unfold ndenumerate. destruct w as [|w].
  - destruct Hr as [Hw _]. unfold shape. by rewrite Hw.
  - rewrite (rect_shape (S w) h) by (done || lia). done.
Qed.

Lemma ndenumerate_fst w h hm : rect w h hm → (ndenumerate hm).*1 = ndindex w h.
Proof.
  intros Hr. rewrite (ndenumerate_rect w h) by done.
  rewrite <- list_fmap_compose. apply list_fmap_id.
Qed.

Lemma elem_of_ndenumerate w h hm i j x :
  rect w h hm → ((i, j), x) ∈ ndenumerate hm ↔ (i < w ∧ j < h) ∧ x = cell hm i j.
Proof.
  intros Hr. rewrite (ndenumerate_rect w h) by done.
  rewrite list_elem_of_fmap. split.
  - intros ([i' j'] & [= -> -> ->] & Hin). by apply elem_of_ndindex in Hin.
  - intros [Hin ->]. exists (i, j). split; [done|]. by apply elem_of_ndindex.
Qed.

Lemma length_ndenumerate w h hm : rect w h hm → length (ndenumerate hm) = w * h.
Proof.
  intros Hr. by rewrite (ndenumerate_rect w h), length_fmap, length_ndindex.
Qed.

(** The percentile of a cell is the candidate at the number of cells with a
    strictly smaller raw value. *)
Lemma calc_percentiles_spec w h hm :
  rect w h hm →
  rect w h (calc_percentiles hm) ∧
  ∀ i j, i < w → j < h →
    cell (calc_percentiles hm) i j =
    candidate (w * h) (count_lt (cell hm i j) (ndenumerate hm)).
Proof.
  intros Hr. unfold calc_percentiles. rewrite percentile_loop_writes.
  set (S := sorted (ndenumerate hm)).
  set (ws := percentile_writes (length S) 0 None S).
  assert (S ≡ₚ ndenumerate hm) as Hperm by apply sorted_Permutation.
  assert (length S = w * h) as Hlen
    by (by rewrite Hperm, (length_ndenumerate w h)).
  assert (Forall2 (λ e c, c.1 = e.1 ∧ c.2 = candidate (length S) (count_lt e.2 S)) S ws)
    as Hspec.
  { apply (percentile_writes_spec _ S S []); try done. apply sorted_sorted. }
  assert (ws.*1 = S.*1) as Hfst.
  { clear -Hspec. induction Hspec as [|e c ?? [Hc _] _ IH]; [done|].
    rewrite !fmap_cons. by rewrite Hc, IH. }
  assert (∀ i j c, ((i, j), c) ∈ ws → i < w ∧ j < h) as Hrange.
  { intros i j c Hin. apply (elem_of_ndindex w h).
    rewrite <- (ndenumerate_fst w h hm) by done.
    assert ((i, j) ∈ ws.*1) as Hin' by (apply list_elem_of_fmap; by exists (i, j, c)).
    rewrite Hfst in Hin'. by rewrite Hperm in Hin'. }
  destruct (foldl_update_cells (λ c _ _ _, c) w h ws hm) as (Hr' & Hin & _);
    [|done|done|].
  { rewrite Hfst, Hperm, (ndenumerate_fst w h) by done. apply NoDup_ndindex. }
  split; [done|]. intros i j Hi Hj.
  assert (((i, j), cell hm i j) ∈ S) as HinS.
  { rewrite Hperm. by apply (elem_of_ndenumerate w h). }
  apply list_elem_of_lookup in HinS as [k Hk].
  destruct (Forall2_lookup_l _ _ _ _ _ Hspec Hk) as ([p c] & Hk' & Hp & Hc).
  simpl in *. subst p. rewrite (Hin i j c).
  - by rewrite Hc, Hlen, (count_lt_Permutation _ _ _ Hperm).
  - apply list_elem_of_lookup. by exists k.
Qed.

Lemma candidate_mono n k k' : 0 < n → k ≤ k' → (candidate n k <= candidate n k')%Q.
Proof.
  intros Hn Hk. unfold candidate, Qdiv.
  apply Qmult_le_compat_r.
  - apply Qplus_le_l. by apply of_nat_le.
  - apply Qinv_le_0_compat, of_nat_nonneg.
Qed.

Lemma candidate_0 n : (candidate n 0 == 1 / of_nat n)%Q.
Proof. unfold candidate. change (of_nat 0) with 0%Q. by rewrite Qplus_0_l. Qed.

Lemma rect_hm_2x2 : rect 2 2 hm_2x2.
Proof. split; [done|]. by repeat constructor. Qed.

(** C4.  Percentile invariant: after [__calc_percentiles], a cell whose raw
    value is strictly smaller than another cell's has a percentile that is
    less than or equal to the other's, and two cells with equal raw values
    have exactly the same percentile. *)
Theorem percentile_order w h (hm : HeightField) i1 j1 i2 j2 :
  rect w h hm → i1 < w → j1 < h → i2 < w → j2 < h →
  ((cell hm i1 j1 < cell hm i2 j2)%Q →
     (cell (calc_percentiles hm) i1 j1 <= cell (calc_percentiles hm) i2 j2)%Q) ∧
  ((cell hm i1 j1 == cell hm i2 j2)%Q →
     cell (calc_percentiles hm) i1 j1 = cell (calc_percentiles hm) i2 j2).
Proof.
  intros Hr Hi1 Hj1 Hi2 Hj2.
  destruct (calc_percentiles_spec w h hm Hr) as [_ Hcell].
  rewrite !Hcell by done. split.
  - intros Hlt. apply candidate_mono; [nia|].
    by apply count_lt_mono, Qlt_le_weak.
  - intros Heq. by rewrite (count_lt_Qeq _ _ _ Heq).
Qed.

Lemma percentile_order_witness :
  (cell (calc_percentiles hm_2x2) 0 0 <= cell (calc_percentiles hm_2x2) 0 1)%Q ∧
  cell (calc_percentiles hm_2x2) 0 1 = cell (calc_percentiles hm_2x2) 1 0.
Proof.
  split.
  - apply (percentile_order 2 2 hm_2x2 0 0 0 1 rect_hm_2x2); [lia..|reflexivity].
  - apply (percentile_order 2 2 hm_2x2 0 1 1 0 rect_hm_2x2); [lia..|reflexivity].
Defined.

(** C10.  When all raw values are equal, [__calc_percentiles] gives every
    cell the percentile [1/(width*height)]; with more than one cell, no cell
    gets percentile [1]. *)
Theorem percentiles_of_constant_field w h (hm : HeightField) (v : Q) :
  rect w h hm →
  (∀ i j, i < w → j < h → (cell hm i j == v)%Q) →
  (∀ i j, i < w → j < h →
     (cell (calc_percentiles hm) i j == 1 / of_nat (w * h))%Q) ∧
  (1 < w * h → ∀ i j, i < w → j < h →
     ¬ (cell (calc_percentiles hm) i j == 1)%Q).
Proof.
  intros Hr Hconst.
  destruct (calc_percentiles_spec w h hm Hr) as [_ Hcell].
  assert (∀ i j, i < w → j < h →
            cell (calc_percentiles hm) i j = candidate (w * h) 0) as Hzero.
  { intros i j Hi Hj. rewrite Hcell by done. f_equal.
    apply count_lt_none, Forall_forall. intros [[i' j'] x] Hin.
    apply (elem_of_ndenumerate w h) in Hin as [[Hi' Hj'] ->]; [|done].
    simpl. rewrite (Hconst i j), (Hconst i' j') by done. apply Qle_refl. }
  split.
  - intros i j Hi Hj. rewrite Hzero by done. apply candidate_0.
  - intros Hn i j Hi Hj. rewrite Hzero, candidate_0 by done.
    assert (1 < of_nat (w * h))%Q as Hlt.
    { unfold of_nat. change 1%Q with (inject_Z 1). rewrite <- Zlt_Qlt. lia. }
    intros Heq. apply (Qlt_irrefl 1). rewrite <- Heq at 1.
    apply Qlt_shift_div_r; [|by rewrite Qmult_1_l].
    eapply Qlt_trans; [|exact Hlt]. done.
Qed.

Lemma percentiles_of_constant_field_witness :
  (∀ i j, i < 2 → j < 3 →
     (cell (calc_percentiles (zeros 2 3)) i j == 1 / of_nat (2 * 3))%Q) ∧
  (1 < 2 * 3 → ∀ i j, i < 2 → j < 3 →
     ¬ (cell (calc_percentiles (zeros 2 3)) i j == 1)%Q).
Proof.
  apply (percentiles_of_constant_field 2 3 (zeros 2 3) 0 (rect_zeros 2 3)).
  intros i j Hi Hj. unfold cell, zeros.
  rewrite !lookup_total_replicate_2 by lia. reflexivity.
Defined.

(** C1 as stated fails.  For the raw field [[1,2],[2,3]] the percentile
    stage does not give [[0.25,0.75],[0.75,1.0]], and with thresholds
    [0.3, 0.6, 1.0] the grouping stage does not give [[0,1],[1,2]]. *)
Lemma scenario_2x2_as_stated_fails :
  ¬ field_eq (calc_percentiles hm_2x2) [[1 # 4; 3 # 4]; [3 # 4; 1]]%Q ∧
  ¬ field_eq (group_cells thresholds_3 (calc_percentiles hm_2x2)) [[0; 1]; [1; 2]]%Q.
Proof.
  split; intros H.
  - apply Forall2_cons_1 in H as [H _].
    apply Forall2_cons_1 in H as [_ H].
    apply Forall2_cons_1 in H as [H _].
    vm_compute in H. discriminate.
  - apply Forall2_cons_1 in H as [_ H].
    apply Forall2_cons_1 in H as [H _].
    apply Forall2_cons_1 in H as [_ H].
    apply Forall2_cons_1 in H as [H _].
    vm_compute in H. discriminate.
Qed.

(** C1, amended.  For the raw field [[1,2],[2,3]] the percentile stage gives
    [[0.25,0.5],[0.5,1.0]]: both cells of value 2 carry the percentile 2/4
    computed at the first of them.  With thresholds [0.3, 0.6, 1.0] the
    grouping stage then gives [[0,1],[1,3]], and [__calc_groups] returns
    that field. *)
Theorem scenario_2x2 :
  field_eq (calc_percentiles hm_2x2) [[1 # 4; 1 # 2]; [1 # 2; 1]]%Q ∧
  group_cells thresholds_3 (calc_percentiles hm_2x2) = [[0; 1]; [1; 3]]%Q ∧
  calc_groups {[ "thresholds" := VNums thresholds_3 ]} (calc_percentiles hm_2x2)
    = Ok [[0; 1]; [1; 3]]%Q.
Proof.
  split_and!.
  - repeat constructor.
  - reflexivity.
  - reflexivity.
Qed.

(** ** Grouper *)

Lemma find_group_Some a thresholds x k :
  find_group a thresholds x = Some k →
  a ≤ k ∧ (∃ t, thresholds !! (k - a) = Some t ∧ (x < t)%Q) ∧
  ∀ k' t, k' < k - a → thresholds !! k' = Some t → ¬ (x < t)%Q.
Proof.
  revert a. induction thresholds as [|t ts IH]; intros a Hfind; [done|].
  simpl in Hfind. destruct (Qlt_bool x t) eqn:Hlt.
  - simplify_eq. rewrite Nat.sub_diag. split_and!; [done| |lia].
    exists t. split; [done|]. by apply Qlt_bool_iff.
  - apply IH in Hfind as (Hle & (t' & Ht' & Hx) & Hbefore).
    replace (k - a) with (S (k - S a)) by lia. split_and!; [lia|by exists t'|].
    intros [|k'] t'' Hk' Hlook; simpl in Hlook.
    + simplify_eq. apply Qle_not_lt. by apply Qlt_bool_false.
    + apply (Hbefore k'); [lia|done].
Qed.

Lemma find_group_None a thresholds x :
  find_group a thresholds x = None →
  ∀ k t, thresholds !! k = Some t → ¬ (x < t)%Q.
Proof.
  revert a. induction thresholds as [|t ts IH]; intros a Hfind k t' Hlook; [done|].
  simpl in Hfind. destruct (Qlt_bool x t) eqn:Hlt; [done|].
  destruct k as [|k]; simpl in Hlook.
  - simplify_eq. apply Qle_not_lt. by apply Qlt_bool_false.
  - by apply (IH (S a) Hfind k).
Qed.

Lemma group_is_group thresholds x : is_group thresholds x (group thresholds x).
Proof.
  unfold group, is_group. destruct (find_group 0 thresholds x) as [k|] eqn:Hfind.
  - apply find_group_Some in Hfind as (_ & (t & Ht & Hx) & Hbefore).
    rewrite Nat.sub_0_r in *. by rewrite Ht.
  - split; [intros k' t _; by apply (find_group_None 0)|].
    by rewrite lookup_ge_None_2.
Qed.

Lemma is_group_unique thresholds x k1 k2 :
  is_group thresholds x k1 → is_group thresholds x k2 → k1 = k2.
Proof.
  assert (∀ a b, is_group thresholds x a → is_group thresholds x b → ¬ a < b) as Hlt.
  { intros a b [_ Ha] [Hb Hb'] Hab.
    destruct (thresholds !! a) as [t|] eqn:Hlook.
    - by apply (Hb a t).
    - destruct (thresholds !! b) as [t|] eqn:Hlook'; [|lia].
      apply lookup_lt_Some in Hlook'. lia. }
  intros H1 H2. pose proof (Hlt k1 k2 H1 H2). pose proof (Hlt k2 k1 H2 H1). lia.
Qed.

Lemma group_le_length thresholds x : group thresholds x ≤ length thresholds.
Proof.
  destruct (group_is_group thresholds x) as [_ H].
  destruct (thresholds !! group thresholds x) eqn:Hlook; [|lia].
  apply lookup_lt_Some in Hlook. lia.
Qed.

Lemma group_cells_spec w h thresholds hm :
  rect w h hm →
  rect w h (group_cells thresholds hm) ∧
  ∀ i j, i < w → j < h →
    cell (group_cells thresholds hm) i j = of_nat (group thresholds (cell hm i j)).
Proof.
  intros Hr. unfold group_cells.
  destruct (foldl_update_cells (λ (_ : Q) _ _ c, of_nat (group thresholds c))
              w h (ndenumerate hm) hm) as (Hr' & Hin & _); [|done| |].
  - rewrite (ndenumerate_fst w h) by done. apply NoDup_ndindex.
  - intros i j a Hin. by apply (elem_of_ndenumerate w h) in Hin as [? _].
  - split; [done|]. intros i j Hi Hj.
    apply (Hin i j (cell hm i j)). by apply (elem_of_ndenumerate w h).
Qed.

(** C7.  The Grouper overwrites every cell value [x] with the index of the
    first threshold strictly greater than [x], and with [len(thresholds)]
    when no threshold exceeds [x]; that index is unique.  With the single
    threshold [0.5], the value [0.5] goes to the overflow bucket [1]. *)
Theorem grouper_first_threshold w h (hm : HeightField) (thresholds : list Q) :
  rect w h hm →
  (∀ i j, i < w → j < h →
     ∃ k, cell (group_cells thresholds hm) i j = of_nat k ∧
          is_group thresholds (cell hm i j) k ∧
          ∀ k', is_group thresholds (cell hm i j) k' → k' = k) ∧
  group [1 # 2]%Q (1 # 2)%Q = 1.
Proof.
  intros Hr. split; [|reflexivity].
  intros i j Hi Hj. exists (group thresholds (cell hm i j)).
  destruct (group_cells_spec w h thresholds hm Hr) as [_ Hcell].
  split_and!; [by apply Hcell|apply group_is_group|].
  intros k' Hk'. eapply is_group_unique; [exact Hk'|apply group_is_group].
Qed.

Lemma grouper_first_threshold_witness :
  (∀ i j, i < 2 → j < 2 →
     ∃ k, cell (group_cells thresholds_3 hm_2x2) i j = of_nat k ∧
          is_group thresholds_3 (cell hm_2x2 i j) k ∧
          ∀ k', is_group thresholds_3 (cell hm_2x2 i j) k' → k' = k) ∧
  group [1 # 2]%Q (1 # 2)%Q = 1.
Proof. apply (grouper_first_threshold 2 2 hm_2x2 thresholds_3 rect_hm_2x2). Defined.

(** ** Rounding *)

Lemma Qfloor_bounds q : (inject_Z (Qfloor q) <= q < inject_Z (Qfloor q) + 1)%Q.
Proof.
  split; [apply Qfloor_le|].
  pose proof (Qlt_floor q) as H. by rewrite inject_Z_plus in H.
Qed.

Lemma Qceiling_bounds q : (inject_Z (Qceiling q) - 1 < q <= inject_Z (Qceiling q))%Q.
Proof.
  split; [|apply Qle_ceiling].
  pose proof (Qceiling_lt q) as H. unfold Z.sub in H.
  by rewrite inject_Z_plus in H.
Qed.

(** [round] returns an integer nearest to its argument. *)
Lemma round_nearest m q : (Qabs (q - inject_Z (round m q)) <= 1 # 2)%Q.
Proof.
  apply Qabs_Qle_condition. destruct m; simpl.
  - unfold round_half_even.
    pose proof (Qfloor_bounds q) as [Hlo Hhi].
    destruct (Qlt_bool _ (1 # 2)) eqn:H1.
    { apply Qlt_bool_iff in H1. split; lra. }
    apply Qlt_bool_false in H1.
    destruct (Qlt_bool (1 # 2) _) eqn:H2.
    { rewrite inject_Z_plus. change (inject_Z 1) with 1%Q. split; lra. }
    apply Qlt_bool_false in H2.
    destruct (Z.even (Qfloor q)).
    + split; lra.
    + rewrite inject_Z_plus. change (inject_Z 1) with 1%Q. split; lra.
  - unfold round_half_away. destruct (Qle_bool 0 q).
    + pose proof (Qfloor_bounds (q + (1 # 2))) as [Hlo Hhi]. split; lra.
    + pose proof (Qceiling_bounds (q - (1 # 2))) as [Hlo Hhi]. split; lra.
Qed.

#[global] Instance round_proper m : Proper (Qeq ==> eq) (round m).
Proof.
  intros q q' Hq. destruct m; simpl.
  - unfold round_half_even. rewrite (Qfloor_comp _ _ Hq).
    assert (q - inject_Z (Qfloor q') == q' - inject_Z (Qfloor q'))%Q as Hr
      by (by rewrite Hq).
    by rewrite !Hr.
  - unfold round_half_away.
    rewrite (Qleb_comp 0%Q 0%Q (Qeq_refl 0%Q) _ _ Hq).
    assert (q + (1 # 2) == q' + (1 # 2))%Q as H1 by (by rewrite Hq).
    assert (q - (1 # 2) == q' - (1 # 2))%Q as H2 by (by rewrite Hq).
    unfold Qceiling.
    assert (- (q - (1 # 2)) == - (q' - (1 # 2)))%Q as H3 by (by rewrite H2).
    by rewrite (Qfloor_comp _ _ H1), (Qfloor_comp _ _ H3).
Qed.

(** Rounding keeps a value inside an interval with integer ends. *)
Lemma round_between m q (a b : Z) :
  (inject_Z a <= q <= inject_Z b)%Q → (a ≤ round m q ≤ b)%Z.
Proof.
  intros [Ha Hb].
  pose proof (round_nearest m q) as Hn. apply Qabs_Qle_condition in Hn as [H1 H2].
  split.
  - destruct (Z_le_gt_dec a (round m q)) as [|Hgt]; [done|].
    assert (inject_Z (round m q) <= inject_Z (a + -1))%Q as Hle
      by (rewrite <- Zle_Qle; lia).
    rewrite inject_Z_plus in Hle. change (inject_Z (-1)) with (-1 # 1)%Q in Hle. lra.
  - destruct (Z_le_gt_dec (round m q) b) as [|Hgt]; [done|].
    assert (inject_Z (b + 1) <= inject_Z (round m q))%Q as Hle
      by (rewrite <- Zle_Qle; lia).
    rewrite inject_Z_plus in Hle. change (inject_Z 1) with 1%Q in Hle. lra.
Qed.

(** ** ErosionFilter *)

Lemma foldl_ext {A B} (f g : A → B → A) a l :
  (∀ a x, f a x = g a x) → foldl f a l = foldl g a l.
Proof. intros Hfg. revert a. induction l as [|x l IH]; intros a; simpl; [done|]. by rewrite Hfg, IH. Qed.

(** Nested loops that overwrite each cell once from its own old value. *)
Lemma for_cells_update (f : nat → nat → Q → Q) w h (hm : HeightField) :
  rect w h hm →
  let hm' := for_cells w h (λ i j acc, set_cell acc i j (f i j (cell acc i j))) hm in
  rect w h hm' ∧ ∀ i j, i < w → j < h → cell hm' i j = f i j (cell hm i j).
Proof.
  intros Hr hm'. subst hm'. rewrite for_cells_ndindex.
  pose (ws := (λ p : nat * nat, (p, ())) <$> ndindex w h).
  assert (ws.*1 = ndindex w h) as Hfst.
  { unfold ws. rewrite <- list_fmap_compose. apply list_fmap_id. }
  assert (foldl (λ s p, set_cell s p.1 p.2 (f p.1 p.2 (cell s p.1 p.2))) hm (ndindex w h)
          = foldl (λ acc '((i, j), _), set_cell acc i j (f i j (cell acc i j))) hm ws)
    as ->.
  { unfold ws. rewrite foldl_fmap. apply foldl_ext. by intros a [i j]. }
  destruct (foldl_update_cells (λ (_ : ()) i j c, f i j c) w h ws hm)
    as (Hr' & Hin & _); [|done| |].
  - rewrite Hfst. apply NoDup_ndindex.
  - intros i j a Hin. apply elem_of_ndindex. rewrite <- Hfst.
    apply list_elem_of_fmap. by exists (i, j, a).
  - split; [exact Hr'|]. intros i j Hi Hj. apply (Hin i j ()).
    apply list_elem_of_fmap. exists (i, j). split; [done|]. by apply elem_of_ndindex.
Qed.

Lemma Qsum_foldl a l : (foldl Qplus a l == a + Qsum l)%Q.
Proof.
  unfold Qsum. revert a. induction l as [|x l IH]; intros a; simpl.
  - by rewrite Qplus_0_r.
  - rewrite (IH (a + x)%Q), (IH (0 + x)%Q). ring.
Qed.

Lemma Qsum_cons x l : (Qsum (x :: l) == x + Qsum l)%Q.
Proof. unfold Qsum at 1. simpl. rewrite Qsum_foldl. ring. Qed.

Lemma Zsum_foldl a l : foldl Z.add a l = (a + Zsum l)%Z.
Proof.
  unfold Zsum. revert a. induction l as [|x l IH]; intros a; simpl; [lia|].
  rewrite (IH (a + x)%Z), (IH (0 + x)%Z). lia.
Qed.

Lemma Zsum_cons x l : Zsum (x :: l) = (x + Zsum l)%Z.
Proof. unfold Zsum at 1. simpl. rewrite Zsum_foldl. lia. Qed.

(** Summing over the entries that pass a filter is summing all entries with
    the rejected ones counted as zero. *)
Lemma Qsum_filter {A} (p : A → bool) (f : A → Q) l :
  (Qsum (map f (List.filter p l)) == Qsum (map (λ e, if p e then f e else 0) l))%Q.
Proof.
  induction l as [|e l IH]; simpl; [done|].
  rewrite Qsum_cons. destruct (p e); simpl.
  - by rewrite Qsum_cons, IH.
  - rewrite IH. ring.
Qed.

Lemma Zsum_filter {A} (p : A → bool) (f : A → Z) l :
  Zsum (map f (List.filter p l)) = Zsum (map (λ e, if p e then f e else 0%Z) l).
Proof.
  induction l as [|e l IH]; simpl; [done|].
  rewrite Zsum_cons. destruct (p e); simpl.
  - by rewrite Zsum_cons, IH.
  - rewrite IH. lia.
Qed.

Lemma get_neighbors_offsets (x y w h : Z) :
  get_neighbors (x, y) (w, h) =
  List.filter (in_shape w h)
    (map (λ d, ((x + d.1, y + d.2), nb_weight d.1 d.2)%Z) listed_offsets).
Proof.
  unfold get_neighbors, listed_offsets. cbn [map fst snd].
  by rewrite !Z.add_0_r.
Qed.

(** The two sums [__smooth] forms over the list returned by
    [__get_neighbors] are the sums of the design. *)
Lemma neighbor_sums w h (hm : HeightField) i j :
  let neighbors := get_neighbors (Z.of_nat i, Z.of_nat j) (Z.of_nat w, Z.of_nat h) in
  (Qsum (map (λ '((k, l), wt), (cell hm (Z.to_nat k) (Z.to_nat l) * inject_Z wt)%Q) neighbors)
   == weighted_sum w h hm i j)%Q ∧
  Zsum (map snd neighbors) = weights_present w h i j.
Proof.
  intros neighbors. subst neighbors. rewrite get_neighbors_offsets. split.
  - rewrite Qsum_filter, map_map.
    rewrite (map_ext _ (λ d, nb_value w h hm i j d.1 d.2)) by (by intros [di dj]).
    unfold weighted_sum, offsets, listed_offsets, Qsum.
    cbn [map foldl fst snd]. ring.
  - rewrite Zsum_filter, map_map.
    rewrite (map_ext _ (λ d, nb_present w h i j d.1 d.2)) by (by intros [di dj]).
    unfold weights_present, offsets, listed_offsets, Zsum.
    cbn [map foldl fst snd]. ring.
Qed.

(** One round of the filter, cell by cell, in terms of the field it started
    from. *)
Lemma smooth_round_cells m w h (hm : HeightField) :
  rect w h hm →
  rect w h (smooth_round m w h hm) ∧
  ∀ i j, i < w → j < h →
    cell (smooth_round m w h hm) i j =
    inject_Z (round m (weighted_sum w h hm i j / inject_Z (weights_present w h i j))).
Proof.
  intros Hr. unfold smooth_round.
  pose (f := λ (i j : nat) (_ : Q),
          inject_Z (round m (weighted_sum w h hm i j / inject_Z (weights_present w h i j)))).
  assert (for_cells w h (smooth_cell m w h hm) hm =
          for_cells w h (λ i j acc, set_cell acc i j (f i j (cell acc i j))) hm) as ->.
  { rewrite !for_cells_ndindex. apply foldl_ext. intros acc [i j].
    unfold smooth_cell, f. simpl.
    destruct (neighbor_sums w h hm i j) as [HQ HZ]. simpl in HQ, HZ.
    by rewrite HZ, HQ. }
  apply (for_cells_update f w h hm Hr).
Qed.

Lemma nb_weight_pos di dj : (1 ≤ nb_weight di dj ≤ 2)%Z.
Proof. unfold nb_weight. destruct (_ && _); lia. Qed.

Lemma nb_present_nonneg w h i j di dj : (0 ≤ nb_present w h i j di dj)%Z.
Proof.
  unfold nb_present. pose proof (nb_weight_pos di dj).
  destruct (nb_inside w h i j di dj); lia.
Qed.

Lemma nb_inside_center w h i j : i < w → j < h → nb_inside w h i j 0 0 = true.
Proof.
  intros Hi Hj. unfold nb_inside. rewrite !Z.add_0_r.
  repeat (apply andb_true_intro; split); try apply Z.leb_le; try apply Z.ltb_lt; lia.
Qed.

(** The divisor of [__smooth] is never zero: the center is always present. *)
Lemma weights_present_bounds w h i j :
  i < w → j < h → (2 ≤ weights_present w h i j ≤ 10)%Z.
Proof.
  intros Hi Hj. unfold weights_present, offsets, Zsum. cbn [map foldl].
  assert (nb_present w h i j 0 0 = 2%Z) as Hc
    by (unfold nb_present; by rewrite nb_inside_center).
  assert (∀ di dj, (0 ≤ nb_present w h i j di dj ≤ nb_weight di dj)%Z) as Hp.
  { intros di dj. unfold nb_present. pose proof (nb_weight_pos di dj).
    destruct (nb_inside w h i j di dj); lia. }
  pose proof (Hp (-1) (-1))%Z. pose proof (Hp (-1) 0)%Z. pose proof (Hp (-1) 1)%Z.
  pose proof (Hp 0 (-1))%Z. pose proof (Hp 0 1)%Z.
  pose proof (Hp 1 (-1))%Z. pose proof (Hp 1 0)%Z. pose proof (Hp 1 1)%Z.
  unfold nb_weight in *. simpl in *. lia.
Qed.

(** C6.  One erosion round computes every cell from the field as it was
    when the round began: the new value of [(i, j)] is the integer nearest to
    (sum of the in-bounds neighbour values, the center counted twice)
    divided by (sum of the weights present), all values taken from the old
    field; the divisor is at least 2. *)
Theorem erosion_round_from_snapshot m w h (hm : HeightField) i j :
  rect w h hm → i < w → j < h →
  let q := (weighted_sum w h hm i j / inject_Z (weights_present w h i j))%Q in
  cell (smooth_round m w h hm) i j = inject_Z (round m q) ∧
  (Qabs (q - inject_Z (round m q)) <= 1 # 2)%Q ∧
  (2 ≤ weights_present w h i j)%Z.
Proof.
  intros Hr Hi Hj q. split_and!.
  - by apply smooth_round_cells.
  - apply round_nearest.
  - by apply weights_present_bounds.
Qed.

Lemma erosion_round_from_snapshot_witness :
  let q := (weighted_sum 3 3 hm_3x3 1 1 / inject_Z (weights_present 3 3 1 1))%Q in
  cell (smooth_round HalfEven 3 3 hm_3x3) 1 1 = inject_Z (round HalfEven q) ∧
  (Qabs (q - inject_Z (round HalfEven q)) <= 1 # 2)%Q ∧
  (2 ≤ weights_present 3 3 1 1)%Z.
Proof.
  apply (erosion_round_from_snapshot HalfEven 3 3 hm_3x3 1 1); [|lia|lia].
  split; [reflexivity|]. repeat constructor.
Defined.

(** C3 as stated fails.  At the corner [(0,0)] of a 5×5 field
    [__get_neighbors] returns the center and three neighbours, not four, and
    the weights sum to 5, not 6. *)
Lemma corner_weight_sum_is_not_6 :
  length (get_neighbors (0, 0)%Z (5, 5)%Z) ≠ 1 + 4 ∧
  Zsum (map snd (get_neighbors (0, 0)%Z (5, 5)%Z)) ≠ 6%Z ∧
  weights_present 5 5 0 0 ≠ 6%Z.
Proof. split_and!; vm_compute; discriminate. Qed.

(** C3, amended.  For the corner cell [(0,0)] of a 5×5 field one erosion
    round averages over the center with weight 2 and exactly three in-bounds
    neighbours, [(0,1)], [(1,0)] and [(1,1)], with weight 1 each: the new
    value is the integer nearest to
    [(2*hm[0][0] + hm[0][1] + hm[1][0] + hm[1][1]) / 5]. *)
Theorem corner_cell_erosion m (hm : HeightField) :
  rect 5 5 hm →
  get_neighbors (0, 0)%Z (5, 5)%Z
    = [ ((0, 0), 2); ((0, 1), 1); ((1, 0), 1); ((1, 1), 1) ]%Z ∧
  Zsum (map snd (get_neighbors (0, 0)%Z (5, 5)%Z)) = 5%Z ∧
  cell (smooth_round m 5 5 hm) 0 0 =
    inject_Z (round m ((2 * cell hm 0 0 + cell hm 0 1 + cell hm 1 0 + cell hm 1 1) / 5)).
Proof.
  intros Hr. split_and!; [reflexivity|reflexivity|].
  destruct (smooth_round_cells m 5 5 hm Hr) as [_ Hcell].
  rewrite Hcell by lia. f_equal. apply round_proper.
  change (weights_present 5 5 0 0) with 5%Z.
  unfold weighted_sum, offsets, Qsum, nb_value. cbn [map foldl].
  repeat match goal with
  | |- context [nb_inside ?w ?h ?i ?j ?a ?b] =>
      let v := eval vm_compute in (nb_inside w h i j a b) in
      change (nb_inside w h i j a b) with v
  | |- context [Z.to_nat ?z] =>
      let v := eval vm_compute in (Z.to_nat z) in
      progress change (Z.to_nat z) with v
  | |- context [nb_weight ?a ?b] =>
      let v := eval vm_compute in (nb_weight a b) in
      change (nb_weight a b) with v
  end.
  cbv iota. change (inject_Z 1) with 1%Q. change (inject_Z 2) with 2%Q.
  change (inject_Z 5) with 5%Q. field.
Qed.

Lemma corner_cell_erosion_witness :
  cell (smooth_round HalfEven 5 5 hm_5x5) 0 0 = 2%Q ∧
  cell (smooth_round HalfAway 5 5 hm_5x5) 0 0 = 2%Q.
Proof.
  assert (rect 5 5 hm_5x5) as Hr by (split; [reflexivity|repeat constructor]).
  split.
  - rewrite (proj2 (proj2 (corner_cell_erosion HalfEven hm_5x5 Hr))). reflexivity.
  - rewrite (proj2 (proj2 (corner_cell_erosion HalfAway hm_5x5 Hr))). reflexivity.
Defined.

(** ** Fields of integers in a range *)

Lemma int_field_mono w h L L' hm : (L ≤ L')%Z → int_field w h L hm → int_field w h L' hm.
Proof.
  intros HL [Hr Hc]. split; [done|]. intros i j Hi Hj.
  destruct (Hc i j Hi Hj) as (z & Hz & ?). exists z. split; [done|lia].
Qed.

Lemma cell_zeros w h i j : i < w → j < h → cell (zeros w h) i j = 0%Q.
Proof. intros. unfold cell, zeros. by rewrite !lookup_total_replicate_2. Qed.

Lemma int_field_zeros w h : int_field w h 0 (zeros w h).
Proof.
  split; [apply rect_zeros|]. intros i j Hi Hj. exists 0%Z.
  split; [by apply cell_zeros|lia].
Qed.

Lemma int_field_group_cells w h thresholds hm :
  rect w h hm → int_field w h (Z.of_nat (length thresholds)) (group_cells thresholds hm).
Proof.
  intros Hr. destruct (group_cells_spec w h thresholds hm Hr) as [Hr' Hcell].
  split; [done|]. intros i j Hi Hj. exists (Z.of_nat (group thresholds (cell hm i j))).
  split; [by apply Hcell|]. pose proof (group_le_length thresholds (cell hm i j)). lia.
Qed.

Lemma Qsum_bounds {A} (f : A → Q) (g : A → Z) (L : Z) l :
  (∀ x, x ∈ l → (0 <= f x <= inject_Z (L * g x))%Q) →
  (0 <= Qsum (map f l) <= inject_Z (L * Zsum (map g l)))%Q.
Proof.
  induction l as [|x l IH]; intros Hl; simpl.
  - unfold Qsum, Zsum. simpl. rewrite Z.mul_0_r. split; apply Qle_refl.
  - rewrite Qsum_cons, Zsum_cons, Z.mul_add_distr_l, inject_Z_plus.
    destruct (Hl x) as [? ?]; [left|].
    destruct IH as [? ?]; [intros y Hy; apply Hl; by right|].
    split; lra.
Qed.

Lemma nb_value_bounds w h hm L i j di dj :
  int_field w h L hm →
  (0 <= nb_value w h hm i j di dj <= inject_Z (L * nb_present w h i j di dj))%Q.
Proof.
  intros [Hr Hc]. unfold nb_value, nb_present.
  destruct (nb_inside w h i j di dj) eqn:Hin.
  - unfold nb_inside in Hin.
    apply andb_prop in Hin as [Hin H4]. apply andb_prop in Hin as [Hin H3].
    apply andb_prop in Hin as [H1 H2].
    apply Z.leb_le in H1, H3. apply Z.ltb_lt in H2, H4.
    destruct (Hc (Z.to_nat (Z.of_nat i + di)) (Z.to_nat (Z.of_nat j + dj)))
      as (z & -> & Hz); [lia|lia|].
    pose proof (nb_weight_pos di dj) as Hw.
    rewrite <- inject_Z_mult. change 0%Q with (inject_Z 0).
    rewrite <- !Zle_Qle. nia.
  - rewrite Z.mul_0_r. split; apply Qle_refl.
Qed.

Lemma int_field_smooth_round m w h L hm :
  int_field w h L hm → int_field w h L (smooth_round m w h hm).
Proof.
  intros Hf. pose proof Hf as [Hr Hc].
  destruct (smooth_round_cells m w h hm Hr) as [Hr' Hcell].
  split; [done|]. intros i j Hi Hj. rewrite Hcell by done.
  eexists. split; [done|]. apply round_between.
  pose proof (weights_present_bounds w h i j Hi Hj) as [HW _].
  assert (0 < inject_Z (weights_present w h i j))%Q as HWpos.
  { change 0%Q with (inject_Z 0). rewrite <- Zlt_Qlt. lia. }
  assert (0 <= weighted_sum w h hm i j
          <= inject_Z (L * weights_present w h i j))%Q as [Hlo Hhi].
  { unfold weighted_sum, weights_present. apply Qsum_bounds. intros di _.
    apply Qsum_bounds. intros dj _. by apply nb_value_bounds. }
  split.
  - apply Qle_shift_div_l; [done|]. by rewrite Qmult_0_l.
  - apply Qle_shift_div_r; [done|]. by rewrite <- inject_Z_mult.
Qed.

Lemma int_field_smooth_rounds m w h L hm n :
  int_field w h L hm → int_field w h L (Nat.iter n (smooth_round m w h) hm).
Proof.
  intros Hf. induction n as [|n IH]; simpl; [done|].
  by apply int_field_smooth_round.
Qed.

(** ** Raw generation *)

Lemma length_rand_row h g : length (rand_row h g).1 = h.
Proof.
  revert g. induction h as [|h IH]; intros g; [done|]. cbn [rand_row].
  destruct (random g) as [x g1]. specialize (IH g1).
  destruct (rand_row h g1) as [row g2]. simpl in *. lia.
Qed.

Lemma rect_rand w h g : rect w h (rand w h g).1.
Proof.
  revert g. induction w as [|w IH]; intros g; cbn [rand].
  - split; [done|constructor].
  - pose proof (length_rand_row h g) as Hrow.
    destruct (rand_row h g) as [row g1]. specialize (IH g1).
    destruct (rand w h g1) as [rows g2]. simpl in *.
    destruct IH as [Hw Hh]. split; [simpl; lia|by constructor].
Qed.

Lemma fault_cell_update s comp i j hm :
  fault_cell s comp i j hm = set_cell hm i j (fault_value s comp i j (cell hm i j)).
Proof.
  unfold fault_cell, fault_value.
  destruct (comp _ _); [done|]. symmetry. apply set_cell_id.
Qed.

Lemma inject_Z_succ z : (inject_Z z + 1)%Q = inject_Z (z + 1).
Proof. unfold Qplus, inject_Z. simpl. f_equal. lia. Qed.

(** One line of the fault algorithm raises every cell by at most one. *)
Lemma int_field_fault_pass w h b s comp hm :
  int_field w h b hm → int_field w h (b + 1) (for_cells w h (fault_cell s comp) hm).
Proof.
  intros [Hr Hc].
  assert (for_cells w h (fault_cell s comp) hm =
          for_cells w h (λ i j acc, set_cell acc i j (fault_value s comp i j (cell acc i j))) hm)
    as ->.
  { rewrite !for_cells_ndindex. apply foldl_ext. intros acc [i j].
    apply fault_cell_update. }
  destruct (for_cells_update (fault_value s comp) w h hm Hr) as [Hr' Hcell].
  split; [done|]. intros i j Hi Hj. rewrite Hcell by done.
  destruct (Hc i j Hi Hj) as (z & -> & Hz). unfold fault_value.
  destruct (comp _ _).
  - exists (z + 1)%Z. split; [apply inject_Z_succ|lia].
  - exists z. split; [done|lia].
Qed.

Lemma int_field_fault_loop self n : ∀ g hm b raw g',
  int_field (width self) (height self) b hm →
  fault_loop self n g hm = Ok (raw, g') →
  int_field (width self) (height self) (b + Z.of_nat n) raw.
Proof.
  induction n as [|n IH]; intros g hm b raw g' Hf Hloop; simpl in Hloop.
  - simplify_eq. by rewrite Z.add_0_r.
  - destruct (random_straight self g) as [[s g1]|e] eqn:Hs; simpl in Hloop; [|done].
    destruct (randint 0 4 g1) as [c g2].
    apply IH with (b := (b + 1)%Z) in Hloop.
    + eapply int_field_mono; [|exact Hloop]. lia.
    + by apply int_field_fault_pass.
Qed.

Lemma random_straight_equal_x self g :
  (floats g 0 * of_nat (width self) == floats g 2 * of_nat (width self))%Q →
  random_straight self g = Raise (NameError "_LinearFaultStrategy__MODIFIER").
Proof.
  intros Heq. unfold random_straight, random. simpl.
  apply Qeq_bool_iff in Heq. by rewrite Heq.
Qed.

Lemma random_straight_distinct_x self g :
  ¬ (floats g 0 * of_nat (width self) == floats g 2 * of_nat (width self))%Q →
  ∃ s, random_straight self g = Ok (s, Rng (λ k, floats g (4 + k)) (ints g)).
Proof.
  intros Hne. unfold random_straight, random. simpl.
  destruct (Qeq_bool _ _) eqn:Heq; [by apply Qeq_bool_iff in Heq|].
  by eexists.
Qed.

Lemma fault_loop_total self n : ∀ g hm,
  distinct_x self n g → ∃ raw g', fault_loop self n g hm = Ok (raw, g').
Proof.
  induction n as [|n IH]; intros g hm Hd; simpl.
  - by eexists _, _.
  - destruct Hd as [Hne Hd].
    destruct (random_straight_distinct_x self g Hne) as [s ->]. simpl.
    apply IH. exact Hd.
Qed.

Lemma generate_raw_rect self g raw g' :
  generate_raw self g = Ok (raw, g') → rect (width self) (height self) raw.
Proof.
  unfold generate_raw. destruct (class self).
  - intros [= <- _]. apply rect_zeros.
  - intros Hr. pose proof (rect_rand (width self) (height self) g) as H.
    destruct (rand _ _ g). by simplify_eq.
  - destruct (config self !! "iterations") as [[|n|]|]; try done.
    intros Hloop. eapply int_field_fault_loop in Hloop; [apply Hloop|].
    apply int_field_zeros.
Qed.

(** C9.  With [iterations = n ≥ 0], whatever the generator draws, the raw
    field [LinearFaultStrategy._generate_raw] returns has the configured
    shape and every cell is an integer in [[0, n]]; the stage does return a
    field whenever the two points of every line differ in x; and with
    [n = 0] it returns the all-zero field without touching the generator. *)
Theorem linear_fault_raw_bound self g (n : Z) :
  class self = LinearFaultStrategy →
  config self !! "iterations" = Some (VInt n) →
  (0 ≤ n)%Z →
  (∀ raw g', generate_raw self g = Ok (raw, g') →
     rect (width self) (height self) raw ∧
     ∀ i j, i < width self → j < height self →
       ∃ z : Z, cell raw i j = inject_Z z ∧ (0 ≤ z ≤ n)%Z) ∧
  (distinct_x self (Z.to_nat n) g → ∃ raw g', generate_raw self g = Ok (raw, g')) ∧
  (n = 0%Z → generate_raw self g = Ok (zeros (width self) (height self), g)).
Proof.
  intros Hclass Hiter Hn. unfold generate_raw. rewrite Hclass, Hiter. split_and!.
  - intros raw g' Hloop.
    eapply int_field_fault_loop in Hloop; [|apply int_field_zeros].
    rewrite Z2Nat.id in Hloop by done. exact Hloop.
  - apply fault_loop_total.
  - by intros ->.
Qed.

Lemma linear_fault_raw_bound_witness :
  (∀ raw g', generate_raw fault_3x4 some_rng = Ok (raw, g') →
     rect 3 4 raw ∧
     ∀ i j, i < 3 → j < 4 → ∃ z : Z, cell raw i j = inject_Z z ∧ (0 ≤ z ≤ 5)%Z) ∧
  (distinct_x fault_3x4 (Z.to_nat 5) some_rng →
     ∃ raw g', generate_raw fault_3x4 some_rng = Ok (raw, g')) ∧
  (5%Z = 0%Z → generate_raw fault_3x4 some_rng = Ok (zeros 3 4, some_rng)).
Proof.
  apply (linear_fault_raw_bound fault_3x4 some_rng 5); [reflexivity|reflexivity|lia].
Defined.

(** ** The pipeline *)

Lemma smooth_int_field m w h config hm L hf :
  int_field w h L hm → smooth m w h config hm = Ok hf → int_field w h L hf.
Proof.
  intros Hf. unfold smooth.
  destruct (config !! "erosion") as [[|r|]|]; intros H; simplify_eq; [|done].
  by apply int_field_smooth_rounds.
Qed.

Lemma smooth_total m w h config hm :
  erosion_well_formed config → ∃ hf, smooth m w h config hm = Ok hf.
Proof.
  intros [Hnone|[r Hr]]; unfold smooth.
  - rewrite Hnone. by eexists.
  - rewrite Hr. by eexists.
Qed.

(** What [generate] does once raw generation has returned [raw]. *)
Lemma generate_after_raw m self g thresholds raw g' :
  config self !! "thresholds" = Some (VNums thresholds) →
  generate_raw self g = Ok (raw, g') →
  generate m self g =
    smooth m (width self) (height self) (config self)
      (group_cells thresholds (calc_percentiles raw)) ∧
  int_field (width self) (height self) (Z.of_nat (length thresholds))
    (group_cells thresholds (calc_percentiles raw)).
Proof.
  intros Hth Hraw. split.
  - unfold generate. rewrite Hraw. simpl. unfold calc_groups. by rewrite Hth.
  - apply int_field_group_cells, calc_percentiles_spec. by eapply generate_raw_rect.
Qed.

(** C5.  When the configuration holds a thresholds list, every height field
    [generate] returns has shape [(width, height)], hence [width*height]
    cells, and each cell is an integer in [[0, len(thresholds)]].  With a
    well-formed erosion count [generate] does return a field: always for the
    base and random strategies, and for the fault strategy with its
    [iterations] whenever the two points of every line differ in x. *)
Theorem generate_shape_and_range m self g (thresholds : list Q) :
  config self !! "thresholds" = Some (VNums thresholds) →
  (∀ hf, generate m self g = Ok hf →
     rect (width self) (height self) hf ∧
     length (ndenumerate hf) = width self * height self ∧
     ∀ i j, i < width self → j < height self →
       ∃ z : Z, cell hf i j = inject_Z z ∧ (0 ≤ z ≤ Z.of_nat (length thresholds))%Z) ∧
  (erosion_well_formed (config self) → class self ≠ LinearFaultStrategy →
     ∃ hf, generate m self g = Ok hf) ∧
  (erosion_well_formed (config self) →
   ∀ n : Z, config self !! "iterations" = Some (VInt n) →
     distinct_x self (Z.to_nat n) g → ∃ hf, generate m self g = Ok hf).
Proof.
  intros Hth.
  assert (∀ raw g', erosion_well_formed (config self) →
            generate_raw self g = Ok (raw, g') →
            ∃ hf, generate m self g = Ok hf) as Hafter.
  { intros raw g' Her Hraw.
    destruct (generate_after_raw m self g thresholds raw g' Hth Hraw) as [-> _].
    by apply smooth_total. }
  split_and!.
  - intros hf Hgen.
    destruct (generate_raw self g) as [[raw g']|e] eqn:Hraw;
      [|unfold generate in Hgen; by rewrite Hraw in Hgen].
    destruct (generate_after_raw m self g thresholds raw g' Hth Hraw) as [Heq Hf].
    rewrite Heq in Hgen.
    destruct (smooth_int_field _ _ _ _ _ _ _ Hf Hgen) as [Hr Hc].
    split_and!; [done|by apply length_ndenumerate|done].
  - intros Her Hclass. unfold generate_raw in Hafter.
    destruct (class self); [|destruct (rand _ _ g) as [raw g']|done]; by eapply Hafter.
  - intros Her n Hiter Hd.
    destruct (fault_loop_total self (Z.to_nat n) g
                (zeros (width self) (height self)) Hd) as (raw & g' & Hloop).
    unfold generate_raw in Hafter. rewrite Hiter in Hafter.
    destruct (class self); [|destruct (rand _ _ g) as [raw' g'']|]; by eapply Hafter.
Qed.

Lemma generate_shape_and_range_witness :
  (∀ hf, generate HalfEven fault_3x4 some_rng = Ok hf →
     rect 3 4 hf ∧
     length (ndenumerate hf) = 3 * 4 ∧
     ∀ i j, i < 3 → j < 4 →
       ∃ z : Z, cell hf i j = inject_Z z ∧ (0 ≤ z ≤ 4)%Z) ∧
  (erosion_well_formed fault_config → class fault_3x4 ≠ LinearFaultStrategy →
     ∃ hf, generate HalfEven fault_3x4 some_rng = Ok hf) ∧
  (erosion_well_formed fault_config →
   ∀ n : Z, config fault_3x4 !! "iterations" = Some (VInt n) →
     distinct_x fault_3x4 (Z.to_nat n) some_rng →
     ∃ hf, generate HalfEven fault_3x4 some_rng = Ok hf).
Proof.
  apply (generate_shape_and_range HalfEven fault_3x4 some_rng [1 # 4; 1 # 2; 3 # 4; 1]%Q).
  reflexivity.
Defined.

Example generate_fault_3x4 :
  generate HalfEven fault_3x4 some_rng
  = Ok [[0; 0; 1; 1]; [0; 0; 0; 1]; [0; 0; 0; 0]]%Q.
Proof. vm_compute. reflexivity. Qed.

(** ** Errors *)

(** C2, on the code.  When the two points drawn by [__random_straight] have
    equal x-coordinates, the method raises [NameError] at the bare name
    [__MODIFIER]: no coordinate is perturbed and no line is returned, and the
    whole run of [generate] ends with that exception. *)
Theorem random_straight_equal_x_raises m :
  random_straight fault_3x4 equal_x_rng
    = Raise (NameError "_LinearFaultStrategy__MODIFIER") ∧
  generate m fault_3x4 equal_x_rng
    = Raise (NameError "_LinearFaultStrategy__MODIFIER").
Proof. split; reflexivity. Qed.

(** The errors of [__calc_groups], by the state of [thresholds]. *)
Lemma calc_groups_raises config hm e :
  calc_groups config hm = Raise e →
  (config !! "thresholds" = None ∧ e = KeyError "thresholds") ∨
  (config !! "thresholds" = Some VNone ∧
     e = ConfigException "The config parameter 'thresholds' must be set.") ∨
  (∃ n, config !! "thresholds" = Some (VInt n) ∧ e = TypeError).
Proof.
  unfold calc_groups. destruct (config !! "thresholds") as [[|n|ths]|]; intros H.
  - right. left. by simplify_eq.
  - right. right. exists n. destruct (ndenumerate hm); by simplify_eq.
  - done.
  - left. by simplify_eq.
Qed.

(** The fault strategy without [iterations] raises its configuration error
    before anything is drawn or allocated. *)
Lemma generate_missing_iterations m self g :
  class self = LinearFaultStrategy →
  config self !! "iterations" = None →
  generate m self g
  = Raise (ConfigException "Config parameter 'iterations' missing for linear fault generator").
Proof. intros Hc Hi. unfold generate, generate_raw. by rewrite Hc, Hi. Qed.

(** A thresholds entry that is present but null raises the configuration
    error of the Grouper. *)
Lemma calc_groups_null_thresholds config hm :
  config !! "thresholds" = Some VNone →
  calc_groups config hm
  = Raise (ConfigException "The config parameter 'thresholds' must be set.").
Proof. intros H. unfold calc_groups. by rewrite H. Qed.

(** C8, on the code.  With no ['thresholds'] key in the configuration the
    Grouper stage ends in the [KeyError] of the dictionary subscript, not in
    the configuration error the method raises two lines further down, for
    every strategy output and every generator state. *)
Theorem missing_thresholds_raises_KeyError m g (hm : HeightField) :
  calc_groups ∅ hm = Raise (KeyError "thresholds") ∧
  generate m (Strategy RandomStrategy 2 2 ∅) g = Raise (KeyError "thresholds") ∧
  generate m (Strategy RandomStrategy 2 2 ∅) g
  ≠ Raise (ConfigException "The config parameter 'thresholds' must be set.").
Proof. split_and!; [reflexivity|reflexivity|discriminate]. Qed.

(** * Further properties of the stages *)

(** ** Normalizer: ranks *)

Lemma rect_ext w h (a b : HeightField) :
  rect w h a → rect w h b →
  (∀ i j, i < w → j < h → cell a i j = cell b i j) → a = b.
Proof.
  intros Ha Hb Hcell. apply list_eq_same_length with w; [apply (proj1 Hb)|apply (proj1 Ha)|].
  intros i ra rb Hi Hra Hrb.
  assert (length ra = h) as Hla by (by apply (Forall_lookup_1 _ _ _ _ (proj2 Ha) Hra)).
  assert (length rb = h) as Hlb by (by apply (Forall_lookup_1 _ _ _ _ (proj2 Hb) Hrb)).
  apply list_eq_same_length with h; [done|done|].
  intros j x y Hj Hx Hy. specialize (Hcell i j Hi Hj). unfold cell in Hcell.
  rewrite (list_lookup_total_correct _ _ _ Hra), (list_lookup_total_correct _ _ _ Hrb) in Hcell.
  by rewrite (list_lookup_total_correct _ _ _ Hx), (list_lookup_total_correct _ _ _ Hy) in Hcell.
Qed.

Lemma count_lt_strict v1 v2 l e :
  e ∈ l → (v1 <= e.2)%Q → (e.2 < v2)%Q → count_lt v1 l < count_lt v2 l.
Proof.
  intros Hin H1 H2.
  assert (v1 <= v2)%Q as Hle by (apply Qlt_le_weak; by eapply Qle_lt_trans).
  induction Hin as [e l|e e' l Hin IH]; simpl.
  - pose proof (count_lt_mono v1 v2 l Hle).
    apply Qlt_bool_false in H1. apply Qlt_bool_iff in H2. rewrite H1, H2. lia.
  - pose proof (count_lt_mono v1 v2 [e'] Hle) as Hm. simpl in Hm.
    specialize (IH H1 H2).
    destruct (Qlt_bool e'.2 v1), (Qlt_bool e'.2 v2); lia.
Qed.

Lemma count_lt_below_length v l e :
  e ∈ l → (v <= e.2)%Q → count_lt v l < length l.
Proof.
  intros Hin Hv. induction Hin as [e l|e e' l Hin IH]; simpl.
  - apply Qlt_bool_false in Hv. rewrite Hv.
    pose proof (count_lt_le_length v l). lia.
  - specialize (IH Hv). destruct (Qlt_bool e'.2 v); lia.
Qed.

Lemma count_lt_eq_length v l :
  count_lt v l = length l ↔ Forall (λ e, (e.2 < v)%Q) l.
Proof.
  split; [|apply count_lt_all].
  induction l as [|e l IH]; simpl; [constructor|].
  pose proof (count_lt_le_length v l).
  destruct (Qlt_bool e.2 v) eqn:He; [|lia].
  intros Hc. constructor; [by apply Qlt_bool_iff|]. apply IH. lia.
Qed.

Lemma candidate_strict n k k' : 0 < n → k < k' → (candidate n k < candidate n k')%Q.
Proof.
  intros Hn Hk. unfold candidate, Qdiv.
  apply Qmult_lt_compat_r.
  - apply Qinv_lt_0_compat. by apply of_nat_pos.
  - apply Qplus_lt_l. unfold of_nat. rewrite <- Zlt_Qlt. lia.
Qed.

Lemma candidate_bounds n k : k < n → (0 < candidate n k <= 1)%Q.
Proof.
  intros Hk. assert (0 < of_nat n)%Q as Hn by (apply of_nat_pos; lia).
  unfold candidate. split.
  - apply Qlt_shift_div_l; [done|]. rewrite Qmult_0_l.
    pose proof (of_nat_nonneg k). lra.
  - apply Qle_shift_div_r; [done|]. rewrite Qmult_1_l.
    unfold of_nat. change 1%Q with (inject_Z 1).
    rewrite <- inject_Z_plus, <- Zle_Qle. lia.
Qed.

Lemma candidate_eq_1 n k : k < n → (candidate n k == 1)%Q ↔ S k = n.
Proof.
  intros Hk. split.
  - intros Heq. destruct (decide (S k = n)) as [|Hne]; [done|].
    assert (S k < S (n - 1)) as Hlt by lia.
    pose proof (candidate_strict n k (n - 1) ltac:(lia) ltac:(lia)) as Hs.
    pose proof (candidate_bounds n (n - 1) ltac:(lia)) as [_ Hb].
    rewrite Heq in Hs. lra.
  - intros <-. unfold candidate.
    assert (of_nat k + 1 == of_nat (S k))%Q as ->.
    { unfold of_nat. change 1%Q with (inject_Z 1).
      rewrite <- inject_Z_plus. apply inject_Z_injective. lia. }
    unfold Qdiv. apply Qmult_inv_r. intros H0.
    pose proof (of_nat_pos (S k) ltac:(lia)) as Hp. rewrite H0 in Hp.
    by apply Qlt_irrefl in Hp.
Qed.

Lemma count_lt_fmap_ext (f1 f2 : nat * nat → Q) v1 v2 (ps : list (nat * nat)) :
  (∀ p, p ∈ ps → Qlt_bool (f1 p) v1 = Qlt_bool (f2 p) v2) →
  count_lt v1 ((λ p, (p, f1 p)) <$> ps) = count_lt v2 ((λ p, (p, f2 p)) <$> ps).
Proof.
  induction ps as [|p ps IH]; intros Hps; [done|].
  rewrite !fmap_cons. simpl. rewrite (Hps p) by left.
  rewrite IH; [done|]. intros q Hq. apply Hps. by right.
Qed.

Lemma Qlt_bool_ext a b c d : ((a < b)%Q ↔ (c < d)%Q) → Qlt_bool a b = Qlt_bool c d.
Proof.
  intros Hiff. destruct (Qlt_bool a b) eqn:H1, (Qlt_bool c d) eqn:H2; try done.
  - apply Qlt_bool_iff, Hiff, Qlt_bool_iff in H1. congruence.
  - apply Qlt_bool_iff, Hiff, Qlt_bool_iff in H2. congruence.
Qed.

Lemma count_lt_same_order w h hm1 hm2 i j :
  rect w h hm1 → rect w h hm2 → same_order w h hm1 hm2 → i < w → j < h →
  count_lt (cell hm1 i j) (ndenumerate hm1) = count_lt (cell hm2 i j) (ndenumerate hm2).
Proof.
  intros Hr1 Hr2 Hord Hi Hj.
  rewrite (ndenumerate_rect w h hm1), (ndenumerate_rect w h hm2) by done.
  apply (count_lt_fmap_ext (λ p, cell hm1 p.1 p.2) (λ p, cell hm2 p.1 p.2)).
  intros [i' j'] Hin. apply elem_of_ndindex in Hin as [Hi' Hj']. simpl.
  apply Qlt_bool_ext. by apply Hord.
Qed.

(** X1.  The percentile [__calc_percentiles] gives a cell is its rank over
    the cell count: one more than the number of cells holding a strictly
    smaller raw value, divided by [width*height].  It lies in (0, 1], and
    the field keeps its shape. *)
Theorem percentile_is_rank w h (hm : HeightField) i j :
  rect w h hm → i < w → j < h →
  let rank := S (count_lt (cell hm i j) (ndenumerate hm)) in
  rect w h (calc_percentiles hm) ∧
  (cell (calc_percentiles hm) i j == of_nat rank / of_nat (w * h))%Q ∧
  1 ≤ rank ≤ w * h ∧
  (0 < cell (calc_percentiles hm) i j <= 1)%Q.
Proof.
  intros Hr Hi Hj rank.
  destruct (calc_percentiles_spec w h hm Hr) as [Hr' Hcell].
  assert (count_lt (cell hm i j) (ndenumerate hm) < w * h) as Hlt.
  { rewrite <- (length_ndenumerate w h hm Hr).
    apply (count_lt_below_length _ _ ((i, j), cell hm i j)).
    - by apply (elem_of_ndenumerate w h).
    - apply Qle_refl. }
  split_and!; [done| |lia|lia|rewrite Hcell by done; by apply candidate_bounds..].
  rewrite Hcell by done. unfold candidate, rank.
  assert (of_nat (count_lt (cell hm i j) (ndenumerate hm)) + 1
          == of_nat (S (count_lt (cell hm i j) (ndenumerate hm))))%Q as ->; [|done].
  unfold of_nat. change 1%Q with (inject_Z 1).
  rewrite <- inject_Z_plus. apply inject_Z_injective. lia.
Qed.

Lemma percentile_is_rank_witness :
  (cell (calc_percentiles hm_2x2) 1 0 == of_nat 2 / of_nat (2 * 2))%Q ∧
  (0 < cell (calc_percentiles hm_2x2) 1 0 <= 1)%Q.
Proof.
  pose proof (percentile_is_rank 2 2 hm_2x2 1 0 rect_hm_2x2 ltac:(lia) ltac:(lia))
    as (_ & Hrank & _ & Hrange).
  split; [exact Hrank|exact Hrange].
Defined.

(** X2.  Strictly smaller raw values get strictly smaller percentiles:
    distinct values are never merged by [__calc_percentiles]. *)
Theorem percentile_strict w h (hm : HeightField) i1 j1 i2 j2 :
  rect w h hm → i1 < w → j1 < h → i2 < w → j2 < h →
  (cell hm i1 j1 < cell hm i2 j2)%Q →
  (cell (calc_percentiles hm) i1 j1 < cell (calc_percentiles hm) i2 j2)%Q.
Proof.
  intros Hr Hi1 Hj1 Hi2 Hj2 Hlt.
  destruct (calc_percentiles_spec w h hm Hr) as [_ Hcell].
  rewrite !Hcell by done. apply candidate_strict; [nia|].
  apply (count_lt_strict _ _ _ ((i1, j1), cell hm i1 j1)); [|apply Qle_refl|done].
  by apply (elem_of_ndenumerate w h).
Qed.

Lemma percentile_strict_witness :
  (cell (calc_percentiles hm_2x2) 0 0 < cell (calc_percentiles hm_2x2) 0 1)%Q.
Proof.
  apply (percentile_strict 2 2 hm_2x2 0 0 0 1 rect_hm_2x2); [lia..|reflexivity].
Defined.

Lemma calc_percentiles_same_order w h hm1 hm2 :
  rect w h hm1 → rect w h hm2 → same_order w h hm1 hm2 →
  calc_percentiles hm1 = calc_percentiles hm2.
Proof.
  intros Hr1 Hr2 Hord.
  destruct (calc_percentiles_spec w h hm1 Hr1) as [Hr1' Hc1].
  destruct (calc_percentiles_spec w h hm2 Hr2) as [Hr2' Hc2].
  apply (rect_ext w h); [done|done|]. intros i j Hi Hj.
  rewrite Hc1, Hc2 by done. f_equal. by apply (count_lt_same_order w h).
Qed.

(** X3.  [__calc_percentiles] depends on the order of the raw values only:
    two fields of the same shape that order their cells the same way get the
    same percentile field, whatever the magnitudes (an outlier changes
    nothing, nor does any increasing rescaling). *)
Theorem percentile_order_invariant w h (hm1 hm2 : HeightField) :
  rect w h hm1 → rect w h hm2 → same_order w h hm1 hm2 →
  calc_percentiles hm1 = calc_percentiles hm2.
Proof. apply calc_percentiles_same_order. Qed.

Lemma percentile_order_invariant_witness :
  calc_percentiles hm_2x2 = calc_percentiles hm_2x2_outlier.
Proof.
  apply (percentile_order_invariant 2 2 hm_2x2 hm_2x2_outlier rect_hm_2x2).
  - split; [reflexivity|]. by repeat constructor.
  - intros i j i' j' Hi Hj Hi' Hj'.
    destruct i as [|[|?]], j as [|[|?]], i' as [|[|?]], j' as [|[|?]]; try lia;
      (split; intros H; vm_compute in H |- *; exact H).
Defined.

Lemma calc_percentiles_keeps_order w h hm :
  rect w h hm → same_order w h (calc_percentiles hm) hm.
Proof.
  intros Hr i j i' j' Hi Hj Hi' Hj'.
  destruct (calc_percentiles_spec w h hm Hr) as [_ Hcell].
  rewrite !Hcell by done. split.
  - intros Hlt. apply Qnot_le_lt. intros Hle.
    apply (Qlt_not_le _ _ Hlt). apply candidate_mono; [nia|]. by apply count_lt_mono.
  - intros Hlt. apply candidate_strict; [nia|].
    apply (count_lt_strict _ _ _ ((i, j), cell hm i j)); [|apply Qle_refl|done].
    by apply (elem_of_ndenumerate w h).
Qed.

(** X4.  [__calc_percentiles] is idempotent: applied to a field of
    percentiles it returns the same field. *)
Theorem percentile_idempotent w h (hm : HeightField) :
  rect w h hm →
  calc_percentiles (calc_percentiles hm) = calc_percentiles hm.
Proof.
  intros Hr. apply (calc_percentiles_same_order w h); [|done|].
  - by apply calc_percentiles_spec.
  - by apply calc_percentiles_keeps_order.
Qed.

Lemma percentile_idempotent_witness :
  calc_percentiles (calc_percentiles hm_2x2) = calc_percentiles hm_2x2.
Proof. apply (percentile_idempotent 2 2 hm_2x2 rect_hm_2x2). Defined.

Lemma count_lt_others w h hm i j :
  rect w h hm → i < w → j < h →
  S (count_lt (cell hm i j) (ndenumerate hm)) = w * h ↔
  ∀ i' j', i' < w → j' < h → (i', j') ≠ (i, j) → (cell hm i' j' < cell hm i j)%Q.
Proof.
  intros Hr Hi Hj.
  rewrite <- (length_ndenumerate w h hm Hr), (ndenumerate_rect w h hm Hr).
  assert ((i, j) ∈ ndindex w h) as Hin by (by apply elem_of_ndindex).
  assert (∀ p, p ∈ ndindex w h ↔ p.1 < w ∧ p.2 < h) as Hidx
    by (intros [??]; apply elem_of_ndindex).
  pose proof (NoDup_ndindex w h) as Hnd.
  apply list_elem_of_split in Hin as (ps1 & ps2 & Hsplit).
  rewrite Hsplit in Hnd, Hidx |- *.
  apply NoDup_app in Hnd as (_ & Hnot1 & Hnd2).
  apply NoDup_cons in Hnd2 as [Hnot2 _].
  set (F := λ p : nat * nat, (p, cell hm p.1 p.2)).
  rewrite fmap_app, fmap_cons, count_lt_app, !length_app. simpl.
  assert (Qlt_bool (cell hm i j) (cell hm i j) = false) as ->
    by (apply Qlt_bool_false, Qle_refl).
  pose proof (count_lt_le_length (cell hm i j) (F <$> ps1)) as H1.
  pose proof (count_lt_le_length (cell hm i j) (F <$> ps2)) as H2.
  pose proof (count_lt_eq_length (cell hm i j) (F <$> ps1)) as E1.
  pose proof (count_lt_eq_length (cell hm i j) (F <$> ps2)) as E2.
  rewrite Forall_fmap in E1, E2. split.
  - intros Hcount i' j' Hi' Hj' Hne.
    assert ((i', j') ∈ ps1 ++ (i, j) :: ps2) as Hin' by (by apply Hidx).
    apply elem_of_app in Hin' as [Hin'|Hin'].
    + assert (Forall ((λ e, (e.2 < cell hm i j)%Q) ∘ F) ps1) as Hall by (apply E1; lia).
      by apply (proj1 (Forall_forall _ _) Hall (i', j')).
    + apply elem_of_cons in Hin' as [?|Hin']; [done|].
      assert (Forall ((λ e, (e.2 < cell hm i j)%Q) ∘ F) ps2) as Hall by (apply E2; lia).
      by apply (proj1 (Forall_forall _ _) Hall (i', j')).
  - intros Hothers.
    assert (∀ ps, (∀ p, p ∈ ps → p ∈ ps1 ++ (i, j) :: ps2) → (i, j) ∉ ps →
              Forall ((λ e, (e.2 < cell hm i j)%Q) ∘ F) ps) as Hall.
    { intros ps Hsub Hnot. apply Forall_forall. intros [i' j'] Hp. simpl.
      destruct (proj1 (Hidx (i', j')) (Hsub _ Hp)) as [Hi' Hj'].
      apply Hothers; [done|done|]. intros [= -> ->]. by apply Hnot. }
    rewrite (proj2 E1), (proj2 E2); [lia| |].
    + apply Hall; [|done]. intros p Hp. apply elem_of_app. right. by right.
    + apply Hall.
      * intros p Hp. apply elem_of_app. by left.
      * intros Hp. by apply (Hnot1 _ Hp); left.
Qed.

Lemma calc_percentiles_eq_1 w h (hm : HeightField) i j :
  rect w h hm → i < w → j < h →
  (cell (calc_percentiles hm) i j == 1)%Q ↔
  ∀ i' j', i' < w → j' < h → (i', j') ≠ (i, j) → (cell hm i' j' < cell hm i j)%Q.
Proof.
  intros Hr Hi Hj.
  destruct (calc_percentiles_spec w h hm Hr) as [_ Hcell].
  rewrite Hcell by done. rewrite candidate_eq_1.
  - by apply count_lt_others.
  - rewrite <- (length_ndenumerate w h hm Hr).
    apply (count_lt_below_length _ _ ((i, j), cell hm i j)); [|apply Qle_refl].
    by apply (elem_of_ndenumerate w h).
Qed.

(** X5.  A cell gets percentile 1 exactly when every other cell holds a
    strictly smaller raw value; when the maximum is shared by two cells no
    cell reaches 1. *)
Theorem percentile_one_iff_strict_maximum w h (hm : HeightField) i j :
  rect w h hm → i < w → j < h →
  (cell (calc_percentiles hm) i j == 1)%Q ↔
  ∀ i' j', i' < w → j' < h → (i', j') ≠ (i, j) → (cell hm i' j' < cell hm i j)%Q.
Proof. apply calc_percentiles_eq_1. Qed.

Lemma percentile_one_iff_strict_maximum_witness :
  (cell (calc_percentiles hm_2x2) 1 1 == 1)%Q ↔
  ∀ i' j', i' < 2 → j' < 2 → (i', j') ≠ (1, 1) → (cell hm_2x2 i' j' < cell hm_2x2 1 1)%Q.
Proof.
  apply (percentile_one_iff_strict_maximum 2 2 hm_2x2 1 1 rect_hm_2x2); lia.
Defined.

(** ** Grouper: order and unsorted thresholds *)

Lemma group_mono thresholds x y : (x <= y)%Q → group thresholds x ≤ group thresholds y.
Proof.
  intros Hxy.
  destruct (group_is_group thresholds x) as [Hx _].
  destruct (group_is_group thresholds y) as [_ Hy].
  destruct (decide (group thresholds x ≤ group thresholds y)) as [|Hgt]; [done|].
  pose proof (group_le_length thresholds x) as Hlen.
  destruct (thresholds !! group thresholds y) as [t|] eqn:Hlook; [|lia].
  exfalso. apply (Hx (group thresholds y) t); [lia|done|].
  by eapply Qle_lt_trans.
Qed.

(** X6.  Grouping preserves order for every thresholds list, ascending or
    not: a larger value never gets a smaller group index. *)
Theorem grouper_monotone (thresholds : list Q) (x y : Q) :
  (x <= y)%Q → group thresholds x ≤ group thresholds y.
Proof. apply group_mono. Qed.

Lemma grouper_monotone_witness :
  group [1 # 2; 1 # 5; 3 # 4]%Q (3 # 10) ≤ group [1 # 2; 1 # 5; 3 # 4]%Q (7 # 10).
Proof. apply (grouper_monotone [1 # 2; 1 # 5; 3 # 4]%Q (3 # 10) (7 # 10)). discriminate. Defined.

Lemma find_group_shift k thresholds x :
  find_group (S k) thresholds x = S <$> find_group k thresholds x.
Proof.
  revert k. induction thresholds as [|t ts IH]; intros k; simpl; [done|].
  destruct (Qlt_bool x t); [done|]. apply IH.
Qed.

Lemma group_cons t ts x :
  group (t :: ts) x = if Qlt_bool x t then 0 else S (group ts x).
Proof.
  unfold group. simpl. destruct (Qlt_bool x t); [done|].
  rewrite find_group_shift. by destruct (find_group 0 ts x).
Qed.

(** X7.  With ascending thresholds the group of [x] is the number of
    thresholds that do not exceed [x]: group [k] holds the values from
    the [k]-th threshold (inclusive) up to the next one (exclusive). *)
Theorem grouper_counts_thresholds (thresholds : list Q) (x : Q) :
  StronglySorted Qle thresholds →
  group thresholds x = count_le x thresholds.
Proof.
  induction 1 as [|t ts Hts IH Hall]; [done|].
  rewrite group_cons. simpl. destruct (Qlt_bool x t) eqn:Hlt.
  - apply Qlt_bool_iff in Hlt.
    assert (Qle_bool t x = false) as ->.
    { destruct (Qle_bool t x) eqn:Hle; [|done].
      apply Qle_bool_iff in Hle. by apply Qlt_not_le in Hlt. }
    assert (count_le x ts = 0) as ->; [|done].
    clear IH Hts. induction Hall as [|t' ts' Ht' _ IH']; simpl; [done|].
    assert (Qle_bool t' x = false) as ->; [|by rewrite IH'].
    destruct (Qle_bool t' x) eqn:Hle; [|done].
    apply Qle_bool_iff in Hle. exfalso. apply (Qlt_not_le _ _ Hlt).
    by eapply Qle_trans.
  - apply Qlt_bool_false, Qle_bool_iff in Hlt. by rewrite Hlt, IH.
Qed.

Lemma grouper_counts_thresholds_witness :
  group thresholds_3 (1 # 2) = count_le (1 # 2) thresholds_3.
Proof.
  apply (grouper_counts_thresholds thresholds_3 (1 # 2)).
  repeat constructor; discriminate.
Defined.

(** X8.  A threshold that is not greater than an earlier threshold is dead:
    no value is ever put into its group. *)
Theorem grouper_dead_threshold (thresholds : list Q) (k k' : nat) (t t' x : Q) :
  k' < k → thresholds !! k' = Some t' → thresholds !! k = Some t → (t <= t')%Q →
  group thresholds x ≠ k.
Proof.
  intros Hk Hlook' Hlook Hle Hgroup.
  destruct (group_is_group thresholds x) as [Hbefore Hat].
  rewrite Hgroup, Hlook in Hat. rewrite Hgroup in Hbefore.
  apply (Hbefore k' t' Hk Hlook'). by eapply Qlt_le_trans.
Qed.

Lemma grouper_dead_threshold_witness :
  group [1 # 2; 1 # 5; 3 # 4]%Q (1 # 10) ≠ 1.
Proof.
  apply (grouper_dead_threshold [1 # 2; 1 # 5; 3 # 4]%Q 1 0 (1 # 5) (1 # 2) (1 # 10));
    [lia|reflexivity|reflexivity|discriminate].
Defined.

(** X9.  With thresholds that are all at most 1, the cell that holds the
    strict maximum of the raw field ends in the overflow group
    [len(thresholds)] after [__calc_percentiles] and [__calc_groups]: the
    pipeline emits [len(thresholds)+1] distinct group indices at most, and the
    last one is used. *)
Theorem strict_maximum_overflows w h (hm : HeightField) (thresholds : list Q) i j :
  rect w h hm → i < w → j < h →
  Forall (λ t, (t <= 1)%Q) thresholds →
  (∀ i' j', i' < w → j' < h → (i', j') ≠ (i, j) → (cell hm i' j' < cell hm i j)%Q) →
  cell (group_cells thresholds (calc_percentiles hm)) i j = of_nat (length thresholds).
Proof.
  intros Hr Hi Hj Hths Hmax.
  destruct (calc_percentiles_spec w h hm Hr) as [Hr' _].
  destruct (group_cells_spec w h thresholds _ Hr') as [_ Hcell].
  rewrite Hcell by done. f_equal.
  apply (is_group_unique thresholds (cell (calc_percentiles hm) i j));
    [apply group_is_group|].
  assert (cell (calc_percentiles hm) i j == 1)%Q as Hone
    by (by apply (calc_percentiles_eq_1 w h)).
  split.
  - intros k' t _ Hlook. rewrite Hone. apply Qle_not_lt.
    by apply (Forall_lookup_1 _ _ _ _ Hths Hlook).
  - by rewrite lookup_ge_None_2.
Qed.

Lemma strict_maximum_overflows_witness :
  cell (group_cells thresholds_3 (calc_percentiles hm_2x2)) 1 1 = of_nat (length thresholds_3).
Proof.
  apply (strict_maximum_overflows 2 2 hm_2x2 thresholds_3 1 1 rect_hm_2x2); [lia|lia| |].
  - repeat constructor; discriminate.
  - intros i' j' Hi' Hj' Hne.
    destruct i' as [|[|?]], j' as [|[|?]]; try lia; try reflexivity. by destruct Hne.
Defined.

(** ** ErosionFilter: neighbourhoods, range, fixed points, locality *)

(** X10.  [__get_neighbors] returns exactly the points of the 3×3 block
    around [pt] that lie inside the shape, each once, the point itself with
    weight 2 and the others with weight 1; at most nine entries. *)
Theorem get_neighbors_spec (x y w h : Z) :
  (∀ a b wt,
     ((a, b), wt) ∈ get_neighbors (x, y) (w, h) ↔
     (x - 1 ≤ a ≤ x + 1)%Z ∧ (y - 1 ≤ b ≤ y + 1)%Z ∧
     (0 ≤ a < w)%Z ∧ (0 ≤ b < h)%Z ∧
     wt = (if decide (a = x ∧ b = y) then 2 else 1)%Z) ∧
  NoDup (get_neighbors (x, y) (w, h)).*1 ∧
  length (get_neighbors (x, y) (w, h)) ≤ 9.
Proof.
  split_and!.
  - intros a b wt. unfold get_neighbors.
    rewrite list_elem_of_In, filter_In. unfold in_shape.
    rewrite !andb_true_iff, !Z.leb_le, !Z.ltb_lt. simpl In. split.
    + intros [Hin Hshape].
      repeat destruct Hin as [Hin|Hin]; try done; simplify_eq;
        (split_and!; try lia; case_decide; [try done; lia|try done; lia]).
    + intros (Ha & Hb & Ha' & Hb' & ->). split; [|lia].
      assert (a = x - 1 ∨ a = x ∨ a = x + 1)%Z as Hac by lia.
      assert (b = y - 1 ∨ b = y ∨ b = y + 1)%Z as Hbc by lia.
      destruct Hac as [-> | [-> | ->]], Hbc as [-> | [-> | ->]];
        case_decide; try lia; tauto.
  - unfold get_neighbors.
    assert (∀ l : list ((Z * Z) * Z), NoDup l.*1 → NoDup (List.filter (in_shape w h) l).*1)
      as Hfilter.
    { induction l as [|e l IH]; [done|]. rewrite fmap_cons.
      intros [Hnot Hnd]%NoDup_cons. simpl. destruct (in_shape w h e); [|by apply IH].
      rewrite fmap_cons. apply NoDup_cons. split; [|by apply IH].
      intros Hin. apply Hnot. apply list_elem_of_fmap in Hin as (e' & -> & Hin).
      apply list_elem_of_fmap. exists e'. split; [done|].
      apply list_elem_of_In, filter_In in Hin as [Hin _]. by apply list_elem_of_In. }
    apply Hfilter. rewrite !fmap_cons. simpl.
    repeat (apply NoDup_cons; split;
            [rewrite ?elem_of_cons, elem_of_nil; intros Hin;
             repeat destruct Hin as [Hin|Hin]; try done; simplify_eq; lia|]).
    apply NoDup_nil_2.
  - unfold get_neighbors.
    etransitivity; [apply filter_length_le|]. simpl. lia.
Qed.

Lemma if_decide_bool {A} (P : Prop) `{Decision P} (b : bool) (x y : A) :
  (b = true ↔ P) → (if decide P then x else y) = (if b then x else y).
Proof.
  intros Hb. destruct b; case_decide as HP; try done.
  - exfalso. apply HP. by apply Hb.
  - apply Hb in HP. discriminate.
Qed.

(** X11.  How many entries [__get_neighbors] returns for a cell of the
    field: the rows present (the cell's own, one above unless [i = 0], one
    below unless [i] is the last row) times the columns present; the weights
    sum to one more.  So an interior cell has 9 entries and weight 10, a
    border cell 6 and 7, a corner 4 and 5. *)
Theorem neighbor_count (w h i j : nat) :
  i < w → j < h →
  let rows := (if decide (0 < i) then 1 else 0) + 1 + (if decide (i + 1 < w) then 1 else 0) in
  let cols := (if decide (0 < j) then 1 else 0) + 1 + (if decide (j + 1 < h) then 1 else 0) in
  let neighbors := get_neighbors (Z.of_nat i, Z.of_nat j) (Z.of_nat w, Z.of_nat h) in
  length neighbors = rows * cols ∧
  Zsum (map snd neighbors) = Z.of_nat (rows * cols + 1).
Proof.
  intros Hi Hj rows cols neighbors. subst rows cols neighbors.
  rewrite (if_decide_bool (0 < i) (0 <=? Z.of_nat i - 1)%Z) by (rewrite Z.leb_le; lia).
  rewrite (if_decide_bool (i + 1 < w) (Z.of_nat i + 1 <? Z.of_nat w)%Z)
    by (rewrite Z.ltb_lt; lia).
  rewrite (if_decide_bool (0 < j) (0 <=? Z.of_nat j - 1)%Z) by (rewrite Z.leb_le; lia).
  rewrite (if_decide_bool (j + 1 < h) (Z.of_nat j + 1 <? Z.of_nat h)%Z)
    by (rewrite Z.ltb_lt; lia).
  unfold get_neighbors, in_shape. cbn [List.filter].
  assert ((Z.of_nat i - 1 <? Z.of_nat w)%Z = true) as -> by (apply Z.ltb_lt; lia).
  assert ((0 <=? Z.of_nat i)%Z = true) as -> by (apply Z.leb_le; lia).
  assert ((Z.of_nat i <? Z.of_nat w)%Z = true) as -> by (apply Z.ltb_lt; lia).
  assert ((0 <=? Z.of_nat i + 1)%Z = true) as -> by (apply Z.leb_le; lia).
  assert ((Z.of_nat j - 1 <? Z.of_nat h)%Z = true) as -> by (apply Z.ltb_lt; lia).
  assert ((0 <=? Z.of_nat j)%Z = true) as -> by (apply Z.leb_le; lia).
  assert ((Z.of_nat j <? Z.of_nat h)%Z = true) as -> by (apply Z.ltb_lt; lia).
  assert ((0 <=? Z.of_nat j + 1)%Z = true) as -> by (apply Z.leb_le; lia).
  generalize (0 <=? Z.of_nat i - 1)%Z (Z.of_nat i + 1 <? Z.of_nat w)%Z
             (0 <=? Z.of_nat j - 1)%Z (Z.of_nat j + 1 <? Z.of_nat h)%Z.
  intros [] [] [] []; split; reflexivity.
Qed.

Lemma neighbor_count_witness :
  length (get_neighbors (Z.of_nat 1, Z.of_nat 0) (Z.of_nat 3, Z.of_nat 3)) = 3 * 2 ∧
  Zsum (map snd (get_neighbors (Z.of_nat 1, Z.of_nat 0) (Z.of_nat 3, Z.of_nat 3)))
  = Z.of_nat (3 * 2 + 1).
Proof. apply (neighbor_count 3 3 1 0); lia. Defined.

Lemma Qsum_between {A} (f : A → Q) (g : A → Z) (a b : Z) l :
  (∀ x, x ∈ l → (inject_Z (a * g x) <= f x <= inject_Z (b * g x))%Q) →
  (inject_Z (a * Zsum (map g l)) <= Qsum (map f l) <= inject_Z (b * Zsum (map g l)))%Q.
Proof.
  induction l as [|x l IH]; intros Hl; simpl.
  - unfold Qsum, Zsum. simpl. rewrite !Z.mul_0_r. split; apply Qle_refl.
  - rewrite Qsum_cons, Zsum_cons, !Z.mul_add_distr_l, !inject_Z_plus.
    destruct (Hl x) as [? ?]; [left|].
    destruct IH as [? ?]; [intros y Hy; apply Hl; by right|].
    split; lra.
Qed.

Lemma nb_value_between w h hm (a b : Z) i j di dj :
  (∀ i j, i < w → j < h → (inject_Z a <= cell hm i j <= inject_Z b)%Q) →
  (inject_Z (a * nb_present w h i j di dj) <= nb_value w h hm i j di dj
   <= inject_Z (b * nb_present w h i j di dj))%Q.
Proof.
  intros Hc. unfold nb_value, nb_present.
  destruct (nb_inside w h i j di dj) eqn:Hin.
  - unfold nb_inside in Hin.
    apply andb_prop in Hin as [Hin H4]. apply andb_prop in Hin as [Hin H3].
    apply andb_prop in Hin as [H1 H2].
    apply Z.leb_le in H1, H3. apply Z.ltb_lt in H2, H4.
    destruct (Hc (Z.to_nat (Z.of_nat i + di)) (Z.to_nat (Z.of_nat j + dj)))
      as [Hlo Hhi]; [lia|lia|].
    pose proof (nb_weight_pos di dj) as Hw.
    assert (0 <= inject_Z (nb_weight di dj))%Q as Hw0.
    { change 0%Q with (inject_Z 0). rewrite <- Zle_Qle. lia. }
    rewrite !inject_Z_mult. split; by apply Qmult_le_compat_r.
  - rewrite !Z.mul_0_r. split; apply Qle_refl.
Qed.

Lemma smooth_round_between m w h hm (a b : Z) :
  rect w h hm →
  (∀ i j, i < w → j < h → (inject_Z a <= cell hm i j <= inject_Z b)%Q) →
  ∀ i j, i < w → j < h →
    ∃ z : Z, cell (smooth_round m w h hm) i j = inject_Z z ∧ (a ≤ z ≤ b)%Z.
Proof.
  intros Hr Hc i j Hi Hj.
  destruct (smooth_round_cells m w h hm Hr) as [_ Hcell].
  rewrite Hcell by done. eexists. split; [done|]. apply round_between.
  pose proof (weights_present_bounds w h i j Hi Hj) as [HW _].
  assert (0 < inject_Z (weights_present w h i j))%Q as HWpos.
  { change 0%Q with (inject_Z 0). rewrite <- Zlt_Qlt. lia. }
  assert (inject_Z (a * weights_present w h i j) <= weighted_sum w h hm i j
          <= inject_Z (b * weights_present w h i j))%Q as [Hlo Hhi].
  { unfold weighted_sum, weights_present. apply Qsum_between. intros di _.
    apply Qsum_between. intros dj _. by apply nb_value_between. }
  split.
  - apply Qle_shift_div_l; [done|]. by rewrite <- inject_Z_mult.
  - apply Qle_shift_div_r; [done|]. by rewrite <- inject_Z_mult.
Qed.

Lemma smooth_rounds_between m w h hm (a b : Z) n :
  rect w h hm →
  (∀ i j, i < w → j < h → (inject_Z a <= cell hm i j <= inject_Z b)%Q) →
  rect w h (Nat.iter n (smooth_round m w h) hm) ∧
  ∀ i j, i < w → j < h →
    (inject_Z a <= cell (Nat.iter n (smooth_round m w h) hm) i j <= inject_Z b)%Q.
Proof.
  intros Hr Hc. induction n as [|n [IHr IHc]]; simpl; [done|].
  split; [by apply smooth_round_cells|]. intros i j Hi Hj.
  destruct (smooth_round_between m w h _ a b IHr IHc i j Hi Hj) as (z & -> & Hz).
  rewrite <- !Zle_Qle. lia.
Qed.

(** X12.  The erosion filter never leaves the range of its input: when
    every cell lies between the integers [a] and [b], so does every cell of
    the field [__smooth] returns, for any number of rounds; it keeps the
    shape, and after at least one round every cell is an integer. *)
Theorem erosion_keeps_range m w h config (hm hf : HeightField) (a b : Z) :
  rect w h hm →
  (∀ i j, i < w → j < h → (inject_Z a <= cell hm i j <= inject_Z b)%Q) →
  smooth m w h config hm = Ok hf →
  rect w h hf ∧
  (∀ i j, i < w → j < h → (inject_Z a <= cell hf i j <= inject_Z b)%Q) ∧
  (∀ r, config !! "erosion" = Some (VInt r) → (0 < r)%Z →
     ∀ i j, i < w → j < h → ∃ z : Z, cell hf i j = inject_Z z).
Proof.
  intros Hr Hc Hsmooth. unfold smooth in Hsmooth.
  destruct (config !! "erosion") as [[|r|]|] eqn:Her; simplify_eq.
  - destruct (smooth_rounds_between m w h hm a b (Z.to_nat r) Hr Hc) as [Hr' Hc'].
    split_and!; [done|done|]. intros r' [= <-] Hpos i j Hi Hj.
    destruct (Z.to_nat r) as [|n] eqn:Hn; [lia|]. simpl.
    destruct (smooth_rounds_between m w h hm a b n Hr Hc) as [Hrn Hcn].
    destruct (smooth_round_between m w h _ a b Hrn Hcn i j Hi Hj) as (z & Hz & _).
    by exists z.
  - split_and!; [done|done|]. intros r [=].
Qed.

Lemma erosion_keeps_range_witness :
  rect 3 3 (Nat.iter 2 (smooth_round HalfEven 3 3) hm_3x3) ∧
  (∀ i j, i < 3 → j < 3 →
     (inject_Z 0 <= cell (Nat.iter 2 (smooth_round HalfEven 3 3) hm_3x3) i j
      <= inject_Z 3)%Q) ∧
  (∀ r, fault_config !! "erosion" = Some (VInt r) → (0 < r)%Z →
     ∀ i j, i < 3 → j < 3 →
       ∃ z : Z, cell (Nat.iter 2 (smooth_round HalfEven 3 3) hm_3x3) i j = inject_Z z).
Proof.
  apply (erosion_keeps_range HalfEven 3 3 fault_config hm_3x3 _ 0 3).
  - split; [reflexivity|]. by repeat constructor.
  - intros i j Hi Hj.
    destruct i as [|[|[|?]]], j as [|[|[|?]]]; try lia; split; discriminate.
  - reflexivity.
Defined.

Lemma smooth_fixes_constant m w h config (hm hf : HeightField) (c : Z) :
  rect w h hm →
  (∀ i j, i < w → j < h → cell hm i j = inject_Z c) →
  smooth m w h config hm = Ok hf →
  hf = hm.
Proof.
  intros Hr Hc Hsmooth. unfold smooth in Hsmooth.
  destruct (config !! "erosion") as [[|r|]|] eqn:Her; simplify_eq; [|done].
  induction (Z.to_nat r) as [|n IH]; simpl; [done|]. rewrite IH.
  apply (rect_ext w h); [by apply smooth_round_cells|done|].
  intros i j Hi Hj.
  destruct (smooth_round_between m w h hm c c Hr) with (i := i) (j := j)
    as (z & -> & Hz); [|done|done|].
  - intros i' j' Hi' Hj'. rewrite Hc by done. split; apply Qle_refl.
  - rewrite Hc by done. f_equal. lia.
Qed.

(** X13.  A field that holds the same integer in every cell is a fixed
    point of the erosion filter: [__smooth] returns it unchanged, whatever
    the number of rounds. *)
Theorem erosion_fixes_constant_field m w h config (hm hf : HeightField) (c : Z) :
  rect w h hm →
  (∀ i j, i < w → j < h → cell hm i j = inject_Z c) →
  smooth m w h config hm = Ok hf →
  hf = hm.
Proof.
  apply smooth_fixes_constant.
Qed.

Lemma erosion_fixes_constant_field_witness :
  Nat.iter 2 (smooth_round HalfEven 3 4) (replicate 3 (replicate 4 (inject_Z 2)))
  = replicate 3 (replicate 4 (inject_Z 2)).
Proof.
  apply (erosion_fixes_constant_field HalfEven 3 4 fault_config _ _ 2).
  - split; [reflexivity|]. by repeat constructor.
  - intros i j Hi Hj.
    destruct i as [|[|[|?]]], j as [|[|[|[|?]]]]; try lia; reflexivity.
  - reflexivity.
Defined.

(** X14.  The filter is local: the new value of a cell depends only on the
    old values in its 3×3 block.  Two fields that agree on the in-bounds
    cells at distance at most one from [(i, j)] get the same value at
    [(i, j)] from one round. *)
Theorem erosion_is_local m w h (hm1 hm2 : HeightField) i j :
  rect w h hm1 → rect w h hm2 → i < w → j < h →
  (∀ i' j', i' < w → j' < h → i - 1 ≤ i' ≤ i + 1 → j - 1 ≤ j' ≤ j + 1 →
     cell hm1 i' j' = cell hm2 i' j') →
  cell (smooth_round m w h hm1) i j = cell (smooth_round m w h hm2) i j.
Proof.
  intros Hr1 Hr2 Hi Hj Hagree.
  destruct (smooth_round_cells m w h hm1 Hr1) as [_ Hc1].
  destruct (smooth_round_cells m w h hm2 Hr2) as [_ Hc2].
  rewrite Hc1, Hc2 by done. do 3 f_equal.
  assert (∀ di dj, (-1 ≤ di ≤ 1)%Z → (-1 ≤ dj ≤ 1)%Z →
            nb_value w h hm1 i j di dj = nb_value w h hm2 i j di dj) as Hnb.
  { intros di dj Hdi Hdj. unfold nb_value.
    destruct (nb_inside w h i j di dj) eqn:Hin; [|done].
    unfold nb_inside in Hin.
    apply andb_prop in Hin as [Hin H4]. apply andb_prop in Hin as [Hin H3].
    apply andb_prop in Hin as [H1 H2].
    apply Z.leb_le in H1, H3. apply Z.ltb_lt in H2, H4.
    rewrite Hagree; [done|lia..]. }
  unfold weighted_sum, offsets. cbn [map].
  by rewrite !Hnb by lia.
Qed.

Lemma erosion_is_local_witness :
  cell (smooth_round HalfEven 5 5 hm_5x5) 0 0
  = cell (smooth_round HalfEven 5 5 (set_cell hm_5x5 4 4 0)) 0 0.
Proof.
  apply (erosion_is_local HalfEven 5 5 hm_5x5 (set_cell hm_5x5 4 4 0) 0 0);
    [split; [reflexivity|by repeat constructor]
    |split; [reflexivity|by repeat constructor]
    |lia|lia|].
  intros i' j' Hi' Hj' Hi Hj.
  destruct i' as [|[|?]], j' as [|[|?]]; try lia; reflexivity.
Defined.

(** ** The fault algorithm: what a cell counts *)

Lemma fault_pass_cells w h s comp hm :
  rect w h hm →
  rect w h (for_cells w h (fault_cell s comp) hm) ∧
  ∀ i j, i < w → j < h →
    cell (for_cells w h (fault_cell s comp) hm) i j = fault_value s comp i j (cell hm i j).
Proof.
  intros Hr.
  assert (for_cells w h (fault_cell s comp) hm =
          for_cells w h (λ i j acc, set_cell acc i j (fault_value s comp i j (cell acc i j))) hm)
    as ->.
  { rewrite !for_cells_ndindex. apply foldl_ext. intros acc [i j].
    apply fault_cell_update. }
  by apply (for_cells_update (fault_value s comp) w h hm).
Qed.

Lemma fault_loop_counts self n : ∀ g hm raw g',
  rect (width self) (height self) hm →
  fault_loop self n g hm = Ok (raw, g') →
  length (drawn_lines self n g) = n ∧
  ∀ i j, i < width self → j < height self →
    (cell raw i j == cell hm i j + of_nat (lines_raising (drawn_lines self n g) i j))%Q.
Proof.
  induction n as [|n IH]; intros g hm raw g' Hr Hloop;
    cbn [fault_loop drawn_lines] in Hloop |- *.
  - simplify_eq. split; [done|]. intros i j _ _. unfold of_nat. simpl. ring.
  - destruct (random_straight self g) as [[s g1]|e] eqn:Hs;
      cbn [mbind result_bind] in Hloop; [|done].
    destruct (randint 0 4 g1) as [c g2].
    destruct (fault_pass_cells (width self) (height self) s (comparators !!! c) hm Hr)
      as [Hr1 Hc1].
    destruct (IH _ _ _ _ Hr1 Hloop) as [Hlen Hcells].
    split; [simpl; by rewrite Hlen|]. intros i j Hi Hj.
    rewrite Hcells, Hc1 by done. cbn [lines_raising]. unfold fault_value.
    destruct ((comparators !!! c) _ _); unfold of_nat;
      rewrite Nat2Z.inj_add, inject_Z_plus; simpl; ring.
Qed.

(** X15.  What the fault algorithm leaves in a cell: the raw value of
    [(i, j)] is the number of drawn lines whose comparison holds there, that
    is, of the [iterations] many pairs (line, comparison) with
    [comp(a*i + b, j)]. *)
Theorem fault_counts_lines self g (n : Z) raw g' :
  class self = LinearFaultStrategy →
  config self !! "iterations" = Some (VInt n) →
  generate_raw self g = Ok (raw, g') →
  length (drawn_lines self (Z.to_nat n) g) = Z.to_nat n ∧
  ∀ i j, i < width self → j < height self →
    cell raw i j = of_nat (lines_raising (drawn_lines self (Z.to_nat n) g) i j).
Proof.
  intros Hclass Hiter Hraw. unfold generate_raw in Hraw. rewrite Hclass, Hiter in Hraw.
  destruct (fault_loop_counts self _ _ _ _ _ (rect_zeros _ _) Hraw) as [Hlen Hcells].
  split; [done|]. intros i j Hi Hj.
  destruct (int_field_fault_loop self _ _ _ 0 _ _ (int_field_zeros _ _) Hraw)
    as [_ Hint].
  destruct (Hint i j Hi Hj) as (z & Hz & _).
  specialize (Hcells i j Hi Hj). rewrite cell_zeros, Qplus_0_l in Hcells by done.
  rewrite Hz in Hcells |- *. unfold of_nat in *.
  f_equal. unfold Qeq in Hcells. simpl in Hcells. lia.
Qed.

Lemma fault_counts_lines_witness :
  length (drawn_lines fault_3x4 (Z.to_nat 5) some_rng) = Z.to_nat 5 ∧
  ∀ i j, i < width fault_3x4 → j < height fault_3x4 →
    cell [[2; 2; 2; 3]; [2; 1; 2; 2]; [2; 2; 2; 2]]%Q i j
    = of_nat (lines_raising (drawn_lines fault_3x4 (Z.to_nat 5) some_rng) i j).
Proof.
  apply (fault_counts_lines fault_3x4 some_rng 5 _ (Nat.iter 5 after_line some_rng));
    [reflexivity|reflexivity|].
  vm_compute. reflexivity.
Defined.

(** ** The pipeline: flat fields and order *)

Lemma calc_percentiles_constant w h (hm : HeightField) (v : Q) :
  rect w h hm →
  (∀ i j, i < w → j < h → (cell hm i j == v)%Q) →
  ∀ i j, i < w → j < h → cell (calc_percentiles hm) i j = candidate (w * h) 0.
Proof.
  intros Hr Hconst i j Hi Hj.
  destruct (calc_percentiles_spec w h hm Hr) as [_ Hcell].
  rewrite Hcell by done. f_equal.
  apply count_lt_none, Forall_forall. intros [[i' j'] x] Hin.
  apply (elem_of_ndenumerate w h) in Hin as [[Hi' Hj'] ->]; [|done].
  simpl. rewrite (Hconst i j), (Hconst i' j') by done. apply Qle_refl.
Qed.

Lemma calc_percentiles_mono w h (hm : HeightField) i1 j1 i2 j2 :
  rect w h hm → i1 < w → j1 < h → i2 < w → j2 < h →
  (cell hm i1 j1 <= cell hm i2 j2)%Q →
  (cell (calc_percentiles hm) i1 j1 <= cell (calc_percentiles hm) i2 j2)%Q.
Proof.
  intros Hr Hi1 Hj1 Hi2 Hj2 Hle.
  destruct (calc_percentiles_spec w h hm Hr) as [_ Hcell].
  rewrite !Hcell by done.
  apply candidate_mono; [apply Nat.mul_pos_pos; lia|]. by apply count_lt_mono.
Qed.

(** X16.  A flat raw field gives a flat map.  When every raw cell holds the
    same value (the base class's all-zero field, for one), every cell of the
    field [generate] returns holds the group of the percentile
    [1/(width*height)], whatever the erosion count. *)
Theorem flat_raw_gives_flat_map m self g (thresholds : list Q) raw g' (v : Q) hf :
  config self !! "thresholds" = Some (VNums thresholds) →
  generate_raw self g = Ok (raw, g') →
  (∀ i j, i < width self → j < height self → (cell raw i j == v)%Q) →
  generate m self g = Ok hf →
  ∀ i j, i < width self → j < height self →
    cell hf i j = of_nat (group thresholds (candidate (width self * height self) 0)).
Proof.
  intros Hth Hraw Hflat Hgen.
  destruct (generate_after_raw m self g thresholds raw g' Hth Hraw) as [Heq [Hr _]].
  rewrite Heq in Hgen.
  pose proof (generate_raw_rect self g raw g' Hraw) as Hrraw.
  destruct (calc_percentiles_spec _ _ raw Hrraw) as [Hrp _].
  destruct (group_cells_spec _ _ thresholds _ Hrp) as [_ Hg].
  assert (∀ i j, i < width self → j < height self →
            cell (group_cells thresholds (calc_percentiles raw)) i j
            = inject_Z (Z.of_nat (group thresholds
                                    (candidate (width self * height self) 0)))) as Hc.
  { intros i j Hi Hj. rewrite Hg by done.
    by rewrite (calc_percentiles_constant (width self) (height self) raw v). }
  rewrite (smooth_fixes_constant _ _ _ _ _ _ _ Hr Hc Hgen).
  exact Hc.
Qed.

Lemma flat_raw_gives_flat_map_witness :
  cell (zeros 2 3) 1 2 = of_nat (group [1 # 4; 1 # 2; 3 # 4; 1]%Q (candidate (2 * 3) 0)).
Proof.
  apply (flat_raw_gives_flat_map HalfEven (Strategy GenerationStrategy 2 3 fault_config)
           some_rng [1 # 4; 1 # 2; 3 # 4; 1]%Q (zeros 2 3) some_rng 0 (zeros 2 3)).
  - reflexivity.
  - reflexivity.
  - intros i j Hi Hj. simpl in Hi, Hj. by rewrite cell_zeros.
  - vm_compute. reflexivity.
  - simpl. lia.
  - simpl. lia.
Defined.

(** X17.  Without erosion (no [erosion] key, or a count that is not
    positive) [generate] preserves the order of the raw heights: a cell
    whose raw value is not larger than another's gets a group that is not
    larger. *)
Theorem generate_keeps_order m self g (thresholds : list Q) raw g' hf i1 j1 i2 j2 :
  config self !! "thresholds" = Some (VNums thresholds) →
  (config self !! "erosion" = None ∨
   ∃ r, config self !! "erosion" = Some (VInt r) ∧ (r ≤ 0)%Z) →
  generate_raw self g = Ok (raw, g') →
  generate m self g = Ok hf →
  i1 < width self → j1 < height self → i2 < width self → j2 < height self →
  (cell raw i1 j1 <= cell raw i2 j2)%Q →
  (cell hf i1 j1 <= cell hf i2 j2)%Q.
Proof.
  intros Hth Her Hraw Hgen Hi1 Hj1 Hi2 Hj2 Hle.
  destruct (generate_after_raw m self g thresholds raw g' Hth Hraw) as [Heq _].
  rewrite Heq in Hgen.
  assert (hf = group_cells thresholds (calc_percentiles raw)) as ->.
  { unfold smooth in Hgen. destruct Her as [Hnone|(r & Hr & Hneg)].
    - rewrite Hnone in Hgen. by simplify_eq.
    - rewrite Hr in Hgen. replace (Z.to_nat r) with 0 in Hgen by lia.
      simpl in Hgen. by simplify_eq. }
  pose proof (generate_raw_rect self g raw g' Hraw) as Hrraw.
  destruct (calc_percentiles_spec _ _ raw Hrraw) as [Hrp _].
  destruct (group_cells_spec _ _ thresholds _ Hrp) as [_ Hg].
  rewrite !Hg by done. apply of_nat_le, group_mono.
  by apply (calc_percentiles_mono (width self) (height self)).
Qed.

Lemma generate_keeps_order_witness :
  (cell [[0; 3; 2]; [3; 2; 1]]%Q 0 2 <= cell [[0; 3; 2]; [3; 2; 1]]%Q 1 0)%Q.
Proof.
  apply (generate_keeps_order HalfEven
           (Strategy RandomStrategy 2 3 {[ "thresholds" := VNums [1 # 4; 1 # 2; 3 # 4]%Q ]})
           some_rng [1 # 4; 1 # 2; 3 # 4]%Q
           [[0 # 11; 7 # 11; 3 # 11]; [10 # 11; 6 # 11; 2 # 11]]%Q
           (Rng (λ k, floats some_rng (6 + k)) (ints some_rng)) _ 0 2 1 0).
  - reflexivity.
  - left. reflexivity.
  - vm_compute. reflexivity.
  - vm_compute. reflexivity.
  - simpl. lia.
  - simpl. lia.
  - simpl. lia.
  - simpl. lia.
  - vm_compute. discriminate.
Defined.

(** ** Max-normalisation *)

Lemma foldl_max_spec x xs :
  let r := foldl (λ a b : Q, if Qlt_bool a b then b else a) x xs in
  r ∈ x :: xs ∧ ∀ y, y ∈ x :: xs → (y <= r)%Q.
Proof.
  revert x. induction xs as [|b xs IH]; intros x; simpl.
  - split; [left|]. intros y ->%list_elem_of_singleton. apply Qle_refl.
  - destruct (Qlt_bool x b) eqn:Hlt.
    + destruct (IH b) as [Hin Hmax]. split; [by right|].
      intros y [->|Hy]%elem_of_cons; [|by apply Hmax].
      apply Qlt_bool_iff in Hlt. eapply Qle_trans; [apply Qlt_le_weak, Hlt|].
      apply Hmax. left.
    + destruct (IH x) as [Hin Hmax]. split.
      * apply elem_of_cons in Hin as [->|Hin]; [left|by do 2 right].
      * intros y [->|[->|Hy]%elem_of_cons]%elem_of_cons.
        -- apply Hmax. left.
        -- apply Qlt_bool_false in Hlt. eapply Qle_trans; [exact Hlt|].
           apply Hmax. left.
        -- apply Hmax. by right.
Qed.

Lemma elem_of_cells w h (hm : HeightField) x :
  rect w h hm → x ∈ mjoin hm ↔ ∃ i j, i < w ∧ j < h ∧ cell hm i j = x.
Proof.
  intros [Hw Hh]. rewrite list_elem_of_join. split.
  - intros (row & Hx & Hrow).
    apply list_elem_of_lookup in Hrow as [i Hi].
    apply list_elem_of_lookup in Hx as [j Hj].
    pose proof (lookup_lt_Some _ _ _ Hi) as Hlti.
    pose proof (lookup_lt_Some _ _ _ Hj) as Hltj.
    rewrite Forall_forall in Hh.
    rewrite (Hh row) in Hltj by (by eapply list_elem_of_lookup_2).
    exists i, j. split_and!; [lia|done|]. unfold cell.
    by rewrite (list_lookup_total_correct _ _ _ Hi), (list_lookup_total_correct _ _ _ Hj).
  - intros (i & j & Hi & Hj & <-). exists (hm !!! i). unfold cell.
    assert (length (hm !!! i) = h) as Hlen by (by apply (rect_row w)).
    split; apply list_elem_of_lookup_total_2; lia.
Qed.

Lemma np_max_spec w h (hm : HeightField) :
  rect w h hm → 0 < w → 0 < h →
  ∃ mx, np_max hm = Some mx ∧
    (∃ i j, i < w ∧ j < h ∧ cell hm i j = mx) ∧
    ∀ i j, i < w → j < h → (cell hm i j <= mx)%Q.
Proof.
  intros Hr Hw Hh. unfold np_max.
  destruct (mjoin hm) as [|x xs] eqn:Hj.
  - assert (cell hm 0 0 ∈ mjoin hm) as Hin
      by (apply (elem_of_cells w h); [done|by exists 0, 0]).
    rewrite Hj in Hin. by apply elem_of_nil in Hin.
  - destruct (foldl_max_spec x xs) as [Hin Hmax]. eexists. split; [done|].
    rewrite <- Hj in Hin, Hmax. split.
    + by apply (elem_of_cells w h).
    + intros i j Hi Hj'. apply Hmax, (elem_of_cells w h); [done|]. by exists i, j.
Qed.

Lemma normalize_loop_spec w h (hm : HeightField) (mx : Q) :
  rect w h hm →
  let hf := foldl (λ acc '((i, j), _), set_cell acc i j (cell acc i j / mx)%Q)
                  hm (ndenumerate hm) in
  rect w h hf ∧ ∀ i j, i < w → j < h → cell hf i j = (cell hm i j / mx)%Q.
Proof.
  intros Hr.
  destruct (foldl_update_cells (λ (_ : Q) _ _ c, (c / mx)%Q)
              w h (ndenumerate hm) hm) as (Hr' & Hin & _); [|done| |].
  - rewrite (ndenumerate_fst w h) by done. apply NoDup_ndindex.
  - intros i j a Hin. by apply (elem_of_ndenumerate w h) in Hin as [? _].
  - split; [done|]. intros i j Hi Hj.
    apply (Hin i j (cell hm i j)). by apply (elem_of_ndenumerate w h).
Qed.

Lemma cell_ones w h i j : i < w → j < h → cell (ones (w, h)) i j = 1%Q.
Proof. intros Hi Hj. unfold cell, ones. simpl. by rewrite !lookup_total_replicate_2. Qed.

Lemma rect_ones w h : rect w h (ones (w, h)).
Proof.
  unfold ones. simpl. split; [by rewrite length_replicate|].
  apply Forall_replicate. by rewrite length_replicate.
Qed.

(** What [__normalize] returns on a field with at least one cell. *)
Lemma normalize_spec w h (hm : HeightField) :
  rect w h hm → 0 < w → 0 < h →
  ∃ mx hf, np_max hm = Some mx ∧ normalize hm = Some hf ∧ rect w h hf ∧
    (∃ i j, i < w ∧ j < h ∧ cell hm i j = mx) ∧
    (∀ i j, i < w → j < h → (cell hm i j <= mx)%Q) ∧
    ∀ i j, i < w → j < h →
      cell hf i j = if Qeq_bool mx 0 then 1%Q else (cell hm i j / mx)%Q.
Proof.
  intros Hr Hw Hh.
  destruct (np_max_spec w h hm Hr Hw Hh) as (mx & Hmx & Hex & Hmax).
  unfold normalize. rewrite Hmx. simpl. exists mx.
  destruct (Qeq_bool mx 0) eqn:H0.
  - eexists. split_and!; [done|done| |done|done|].
    + rewrite (rect_shape w h) by done. apply rect_ones.
    + intros i j Hi Hj. rewrite (rect_shape w h) by done. by apply cell_ones.
  - destruct (normalize_loop_spec w h hm mx Hr) as [Hr' Hc].
    eexists. by split_and!.
Qed.

(** X18.  [__normalize] on a field with at least one cell and no negative
    value: it returns a field of the same shape whose cells all lie in
    [[0, 1]], and at least one cell holds exactly 1 (every cell does, when
    the field is all zero). *)
Theorem normalize_range w h (hm : HeightField) :
  rect w h hm → 0 < w → 0 < h →
  (∀ i j, i < w → j < h → (0 <= cell hm i j)%Q) →
  ∃ hf, normalize hm = Some hf ∧ rect w h hf ∧
    (∀ i j, i < w → j < h → (0 <= cell hf i j <= 1)%Q) ∧
    ∃ i j, i < w ∧ j < h ∧ (cell hf i j == 1)%Q.
Proof.
  intros Hr Hw Hh Hpos.
  destruct (normalize_spec w h hm Hr Hw Hh)
    as (mx & hf & _ & Hn & Hr' & (i0 & j0 & Hi0 & Hj0 & Hmx) & Hmax & Hc).
  exists hf. split_and!; [done|done| |].
  - intros i j Hi Hj. rewrite Hc by done.
    destruct (Qeq_bool mx 0) eqn:H0; [split; discriminate|].
    assert (0 < mx)%Q as Hmxpos.
    { pose proof (Hpos i0 j0 Hi0 Hj0) as Hcase. rewrite Hmx in Hcase.
      apply Qle_lt_or_eq in Hcase as [?|Heq]; [done|].
      symmetry in Heq. apply Qeq_bool_iff in Heq. congruence. }
    split.
    + apply Qle_shift_div_l; [done|]. rewrite Qmult_0_l. by apply Hpos.
    + apply Qle_shift_div_r; [done|]. rewrite Qmult_1_l. by apply Hmax.
  - exists i0, j0. split_and!; [done|done|]. rewrite Hc by done.
    destruct (Qeq_bool mx 0) eqn:H0; [reflexivity|].
    rewrite Hmx. apply Qmult_inv_r. intros Heq.
    apply Qeq_bool_iff in Heq. congruence.
Qed.

Lemma normalize_range_witness :
  ∃ hf, normalize hm_2x2 = Some hf ∧ rect 2 2 hf ∧
    (∀ i j, i < 2 → j < 2 → (0 <= cell hf i j <= 1)%Q) ∧
    ∃ i j, i < 2 ∧ j < 2 ∧ (cell hf i j == 1)%Q.
Proof.
  apply (normalize_range 2 2 hm_2x2 rect_hm_2x2); [lia|lia|].
  intros i j Hi Hj. destruct i as [|[|?]], j as [|[|?]]; try lia; discriminate.
Defined.



(** * Visualisation: colours for the groups *)

Lemma py_int_inject_Z z : py_int (inject_Z z) = z.
Proof. unfold py_int. destruct (Qlt_bool _ _); [apply Qceiling_Z|apply Qfloor_Z]. Qed.

Lemma list_item_nat {A} (l : list A) (k : nat) :
  list_item l (Z.of_nat k)
  = match l !! k with Some a => Done a | None => Fails IndexError end.
Proof.
  unfold list_item. cbv zeta.
  assert ((Z.of_nat k <? 0)%Z = false) as Hk by (apply Z.ltb_ge; lia).
  rewrite Hk. cbv iota. rewrite Hk. by rewrite Nat2Z.id.
Qed.

Lemma get_color_of_nat self colors k :
  color_map self = Arr colors →
  get_color self (of_nat k)
  = match colors !! k with Some c => Done c | None => Fails IndexError end.
Proof.
  intros Hc. unfold get_color, of_nat. rewrite Hc, py_int_inject_Z.
  apply list_item_nat.
Qed.

Lemma draw_tiles_Done self colors cells :
  color_map self = Arr colors →
  (∀ p x, (p, x) ∈ cells → ∃ k, x = of_nat k ∧ k < length colors) →
  ∃ calls, draw_tiles self cells = Done calls ∧ length calls = length cells ∧
    ∀ i j k c, ((i, j), of_nat k) ∈ cells → colors !! k = Some c →
      Rectangle (tile self i j) c ∈ calls.
Proof.
  intros Hc. induction cells as [|[[i j] x] cells IH]; intros Hcells.
  - exists []. split_and!; [done|done|]. intros i j k c Hin. by apply elem_of_nil in Hin.
  - destruct (Hcells (i, j) x) as (k & -> & Hk); [left|].
    destruct (lookup_lt_is_Some_2 colors k Hk) as [c Hcol].
    destruct IH as (calls & Hd & Hl & Hin); [intros p x Hx; apply (Hcells p); by right|].
    exists (Rectangle (tile self i j) c :: calls). cbn [draw_tiles].
    rewrite (get_color_of_nat self colors k Hc), Hcol, Hd. split_and!.
    + done.
    + simpl. by rewrite Hl.
    + intros i' j' k' c' [Heq|Hx]%elem_of_cons Hcol'.
      * injection Heq as -> -> Hkk. apply Nat2Z.inj in Hkk as ->.
        rewrite Hcol in Hcol'. injection Hcol' as <-. left.
      * right. by apply (Hin i' j' k').
Qed.

Lemma draw_tiles_IndexError self colors cells p k :
  color_map self = Arr colors →
  (∀ q x, (q, x) ∈ cells → ∃ k', x = of_nat k') →
  (p, of_nat k) ∈ cells → length colors ≤ k →
  draw_tiles self cells = Fails IndexError.
Proof.
  intros Hc. induction cells as [|[[i j] x] cells IH]; intros Hcells Hin Hk.
  - by apply elem_of_nil in Hin.
  - destruct (Hcells (i, j) x) as (k0 & ->); [left|].
    cbn [draw_tiles]. rewrite (get_color_of_nat self colors k0 Hc).
    destruct (colors !! k0) as [c|] eqn:Hcol; [|done].
    rewrite IH; [done| |  |done].
    + intros q x Hx. apply (Hcells q). by right.
    + apply elem_of_cons in Hin as [Heq|Hin]; [|done].
      injection Heq as _ Hkk. apply Nat2Z.inj in Hkk as ->.
      apply lookup_lt_Some in Hcol. lia.
Qed.

Lemma list_item_fails {A} (l : list A) (k : Z) e :
  list_item l k = Fails e → e = IndexError.
Proof. unfold list_item. cbv zeta. repeat case_match; congruence. Qed.

(** The exceptions of [get_color] and of the drawing loop. *)
Lemma get_color_fails self x e :
  get_color self x = Fails e → e = IndexError ∨ e = VisTypeError.
Proof.
  unfold get_color, subscript. destruct (color_map self) as [n|s|l].
  - intros [= <-]. by right.
  - destruct (list_item _ _) as [c|e'] eqn:Hitem; cbn [mbind outcome_bind]; [done|].
    intros [= <-]. left. by eapply list_item_fails.
  - intros Hitem. left. by eapply list_item_fails.
Qed.

Lemma draw_tiles_fails self cells e :
  draw_tiles self cells = Fails e → e = IndexError ∨ e = VisTypeError.
Proof.
  induction cells as [|[[i j] x] cells IH]; [done|]. cbn [draw_tiles].
  destruct (get_color self x) as [c|e'] eqn:Hc; cbn [mbind outcome_bind].
  - destruct (draw_tiles self cells) as [calls|e'']; cbn [mbind outcome_bind]; [done|].
    intros [= <-]. by apply IH.
  - intros [= <-]. by eapply get_color_fails.
Qed.

Lemma generate_int_field m self g thresholds hf :
  config self !! "thresholds" = Some (VNums thresholds) →
  generate m self g = Ok hf →
  int_field (width self) (height self) (Z.of_nat (length thresholds)) hf.
Proof.
  intros Hth Hgen.
  destruct (generate_raw self g) as [[raw g']|e] eqn:Hraw;
    [|unfold generate in Hgen; by rewrite Hraw in Hgen].
  destruct (generate_after_raw m self g thresholds raw g' Hth Hraw) as [Heq Hf].
  rewrite Heq in Hgen. by eapply smooth_int_field.
Qed.

Lemma int_field_of_nat w h L hm i j :
  int_field w h (Z.of_nat L) hm → i < w → j < h →
  ∃ k, cell hm i j = of_nat k ∧ k ≤ L.
Proof.
  intros [_ Hint] Hi Hj. destruct (Hint i j Hi Hj) as (z & Hz & Hz0).
  exists (Z.to_nat z). split; [|lia].
  rewrite Hz. unfold of_nat. by rewrite Z2Nat.id by lia.
Qed.

(** X20.  One colour more than there are thresholds is enough.  For a map
    returned by [generate] and a colour list longer than the thresholds
    list, [_visualize] raises nothing: it draws one rectangle per cell,
    [width*height] in all, and fills the tile of cell [(i, j)] with the
    colour at the index the cell holds. *)
Theorem enough_colors m gs g (thresholds : list Q) hf
    (self : rectangle_strategy) (colors : list vis_value) :
  config gs !! "thresholds" = Some (VNums thresholds) →
  generate m gs g = Ok hf →
  heightmap self = hf →
  color_map self = Arr colors →
  length thresholds < length colors →
  ∃ calls, _visualize self = Done calls ∧
    length calls = width gs * height gs ∧
    ∀ i j, i < width gs → j < height gs →
      ∃ k c, cell hf i j = of_nat k ∧ colors !! k = Some c ∧
             Rectangle (tile self i j) c ∈ calls.
Proof.
  intros Hth Hgen Hhm Hcm Hlen.
  pose proof (generate_int_field m gs g thresholds hf Hth Hgen) as Hf.
  pose proof (proj1 Hf) as Hr.
  assert (∀ i j, i < width gs → j < height gs →
            ∃ k, cell hf i j = of_nat k ∧ k < length colors) as Hk.
  { intros i j Hi Hj. destruct (int_field_of_nat _ _ _ _ i j Hf Hi Hj) as (k & ? & ?).
    exists k. split; [done|lia]. }
  destruct (draw_tiles_Done self colors (ndenumerate hf) Hcm) as (calls & Hd & Hl & Hin).
  { intros [i j] x Hx.
    apply (elem_of_ndenumerate (width gs) (height gs)) in Hx as [[Hi Hj] ->]; [|done].
    by apply Hk. }
  exists calls. unfold _visualize. rewrite Hhm. split_and!; [done| |].
  - by rewrite Hl, (length_ndenumerate (width gs) (height gs)).
  - intros i j Hi Hj. destruct (Hk i j Hi Hj) as (k & Hc & Hlt).
    destruct (lookup_lt_is_Some_2 colors k Hlt) as [c Hcol].
    exists k, c. split_and!; [done|done|]. apply (Hin i j k c); [|done].
    rewrite <- Hc. by apply (elem_of_ndenumerate (width gs) (height gs)).
Qed.

Lemma enough_colors_witness :
  ∃ calls, _visualize (rect_2x3 [blue; sand; green; white]) = Done calls ∧
    length calls = 2 * 3 ∧
    ∀ i j, i < 2 → j < 3 →
      ∃ k c, cell map_2x3 i j = of_nat k ∧
             [blue; sand; green; white] !! k = Some c ∧
             Rectangle (tile (rect_2x3 [blue; sand; green; white]) i j) c ∈ calls.
Proof.
  apply (enough_colors HalfEven random_2x3 some_rng [1 # 4; 1 # 2; 3 # 4]%Q map_2x3
           (rect_2x3 [blue; sand; green; white]) [blue; sand; green; white]).
  - reflexivity.
  - vm_compute. reflexivity.
  - reflexivity.
  - reflexivity.
  - simpl. lia.
Defined.

(** X21.  As many colours as thresholds are too few when no threshold
    exceeds 1.  Without erosion the cell that holds the strict maximum of
    the raw field is in group [len(thresholds)], so with a colour list no
    longer than the thresholds list [_visualize] raises [IndexError] and
    nothing is saved. *)
Theorem too_few_colors m gs g (thresholds : list Q) raw g' hf i j
    (self : rectangle_strategy) (colors : list vis_value) :
  config gs !! "thresholds" = Some (VNums thresholds) →
  config gs !! "erosion" = None →
  Forall (λ t, (t <= 1)%Q) thresholds →
  generate_raw gs g = Ok (raw, g') →
  i < width gs → j < height gs →
  (∀ i' j', i' < width gs → j' < height gs → (i', j') ≠ (i, j) →
     (cell raw i' j' < cell raw i j)%Q) →
  generate m gs g = Ok hf →
  heightmap self = hf →
  color_map self = Arr colors →
  length colors ≤ length thresholds →
  _visualize self = Fails IndexError.
Proof.
  intros Hth Her Hths Hraw Hi Hj Hmax Hgen Hhm Hcm Hlen.
  pose proof (generate_int_field m gs g thresholds hf Hth Hgen) as Hf.
  destruct (generate_after_raw m gs g thresholds raw g' Hth Hraw) as [Heq _].
  rewrite Heq in Hgen. unfold smooth in Hgen. rewrite Her in Hgen.
  injection Hgen as Hhf.
  pose proof (generate_raw_rect gs g raw g' Hraw) as Hrraw.
  destruct (calc_percentiles_spec _ _ raw Hrraw) as [Hrp _].
  destruct (group_cells_spec _ _ thresholds _ Hrp) as [_ Hg].
  assert (cell hf i j = of_nat (length thresholds)) as Hcell.
  { rewrite <- Hhf, Hg by done. f_equal.
    apply (is_group_unique thresholds (cell (calc_percentiles raw) i j));
      [apply group_is_group|].
    assert (cell (calc_percentiles raw) i j == 1)%Q as Hone
      by (by apply (calc_percentiles_eq_1 (width gs) (height gs))).
    split.
    - intros k' t _ Hlook. rewrite Hone. apply Qle_not_lt.
      by apply (Forall_lookup_1 _ _ _ _ Hths Hlook).
    - by rewrite lookup_ge_None_2. }
  unfold _visualize. rewrite Hhm.
  apply (draw_tiles_IndexError self colors _ (i, j) (length thresholds)); [done| | |done].
  - intros [i' j'] x Hx.
    apply (elem_of_ndenumerate (width gs) (height gs)) in Hx as [[Hi' Hj'] ->];
      [|apply Hf].
    destruct (int_field_of_nat _ _ _ _ i' j' Hf Hi' Hj') as (k & ? & _). by exists k.
  - rewrite <- Hcell. apply (elem_of_ndenumerate (width gs) (height gs)); [apply Hf|done].
Qed.

Lemma too_few_colors_witness :
  _visualize (rect_2x3 [blue; sand; green]) = Fails IndexError.
Proof.
  apply (too_few_colors HalfEven random_2x3 some_rng [1 # 4; 1 # 2; 3 # 4]%Q raw_2x3
           (Rng (λ k, floats some_rng (6 + k)) (ints some_rng)) map_2x3 1 0
           (rect_2x3 [blue; sand; green]) [blue; sand; green]).
  - reflexivity.
  - reflexivity.
  - repeat constructor; discriminate.
  - vm_compute. reflexivity.
  - simpl. lia.
  - simpl. lia.
  - intros i' j' Hi' Hj' Hne. simpl in Hi', Hj'.
    destruct i' as [|[|?]], j' as [|[|[|?]]]; try lia; try done.
  - vm_compute. reflexivity.
  - reflexivity.
  - reflexivity.
  - simpl. lia.
Defined.


